(** * rounded-ass: the cue-to-layout pipeline of [src/lib/roundedAss.js]

    A shallow embedding of the pure parts of the subtitle converter:
    timing normalisation, script detection, parameter resolution, the
    heuristic text measurer, box geometry and the event builder.

    Conventions of the embedding.
    - A JavaScript number is an exact rational ([Q]); the functions below
      use only [+ - * /], comparisons, [Math.min], [Math.max] and
      [Math.floor], which have their usual meaning on [Q].  [NaN] and the
      infinities have no counterpart.  Equality of numbers is [Qeq] ([==]).
    - Where the rounding of the arithmetic decides a branch, in the gap
      test of the timing pass, the test is carried out as the program does
      it, on doubles: [JS.double] rounds a rational to the nearest binary64
      number, ties to even, and [JS.sub] is the rounded difference.
    - The alpha options are integers ([Z]), as the command line parses them.
    - An option that the caller left out ([undefined]) is [None].
    - A JavaScript string holding subtitle text is its list of UTF-16 code
      units ([list N]); the strings the program prints from numbers are
      [string]s.
    - The array of cues is a [list]; [subtitles[i]] is stdpp's [!!] and the
      in-place update of an element is stdpp's [<[i:=_]>]. *)

From Stdlib Require Import QArith Qround Qminmax Qabs Qpower ZArith NArith.
From Stdlib Require Import List Bool Lia Lqa.
From Stdlib Require Import Ascii String DecimalString HexadecimalString.
From stdpp Require Import base list.
Import ListNotations.

(** ** JavaScript numbers *)

Module JS.

(** [x || d] on a number that may be missing: [undefined] and [0] are falsy. *)
Definition truthy (x : Q) : bool := negb (Qeq_bool x 0).

Definition or_else (v : option Q) (d : Q) : Q :=
  match v with
  | Some x => if truthy x then x else d
  | None => d
  end.

Definition truthyZ (x : Z) : bool := negb (x =? 0)%Z.

Definition or_elseZ (v : option Z) (d : Z) : Z :=
  match v with
  | Some x => if truthyZ x then x else d
  | None => d
  end.

(** [x !== undefined ? x : d], used for the boolean switches. *)
Definition defined_or {A : Type} (v : option A) (d : A) : A :=
  match v with
  | Some x => x
  | None => d
  end.

(** [a < b] and [a > b] as tests. *)
Definition lt (a b : Q) : bool :=
  match Qcompare a b with Lt => true | _ => false end.

Definition gt (a b : Q) : bool := lt b a.

(** The exponent [e] with [2^e <= x < 2^(e+1)], for a positive [x]. *)
Definition ilog2 (x : Q) : Z :=
  let d := (Z.log2 (Qnum x) - Z.log2 (Zpos (Qden x)))%Z in
  if lt x (2 ^ d) then (d - 1)%Z else d.

(** The nearest integer, the even one at a tie. *)
Definition roundEven (y : Q) : Z :=
  let f := Qfloor y in
  match Qcompare (y - inject_Z f) (1 # 2) with
  | Lt => f
  | Gt => (f + 1)%Z
  | Eq => if Z.even f then f else (f + 1)%Z
  end.

(** The exponent of the last bit of the double nearest to [x]: 53
    significant bits, and never below the last bit of the subnormal
    numbers. *)
Definition ulpExp (x : Q) : Z := (Z.max (ilog2 (Qabs x)) (-1022) - 52)%Z.

(** The double nearest to [x], ties to even: the value a number literal
    or the result of one arithmetic operation has in the program.  Overflow
    to infinity has no counterpart. *)
Definition double (x : Q) : Q :=
  if Qeq_bool x 0 then 0
  else
    let k := ulpExp x in
    (inject_Z (roundEven (x * 2 ^ (- k))) * 2 ^ k)%Q.

(** [x - y] on doubles. *)
Definition sub (x y : Q) : Q := double (x - y).

(** The literal [0.1]. *)
Definition tenth : Q := double (1 # 10).

(** [Math.trunc], needed for the remainder operator. *)
Definition trunc (x : Q) : Z :=
  if lt x 0 then Qceiling x else Qfloor x.

(** [x % m]: the remainder has the sign of the dividend. *)
Definition rem (x m : Q) : Q := (x - m * inject_Z (trunc (x / m)))%Q.

(** [s.padStart(n, '0')]. *)
Definition padStart0 (n : nat) (s : string) : string :=
  (String.concat "" (repeat "0" (n - String.length s)) ++ s)%string.

(** [n.toString()] for an integer. *)
Definition intToString (n : Z) : string :=
  match n with
  | Zneg p => ("-" ++ DecimalString.NilZero.string_of_uint (Pos.to_uint p))%string
  | _ => DecimalString.NilZero.string_of_uint (N.to_uint (Z.to_N n))
  end.

(** [n.toString(16)] for an integer: lower-case digits. *)
Definition intToHex (n : Z) : string :=
  match n with
  | Zneg p =>
      ("-" ++ HexadecimalString.NilZero.string_of_uint (Pos.to_hex_uint p))%string
  | _ => HexadecimalString.NilZero.string_of_uint (N.to_hex_uint (Z.to_N n))
  end.

(** The integer nearest to [100 * |x|], the larger one at a tie. *)
Definition hundredths (x : Q) : Z := Qfloor (Qabs x * 100 + (1 # 2)).

(** [x.toFixed(2)]: the integer [n] nearest to [100 * |x|], printed with
    at least three digits and a point before the last two. *)
Definition toFixed2 (x : Q) : string :=
  let n := hundredths x in
  let digits := padStart0 3 (intToString n) in
  let k := (String.length digits - 2)%nat in
  ((if lt x 0 then "-" else "")
     ++ substring 0 k digits ++ "." ++ substring k 2 digits)%string.

End JS.

(** ** Parameter resolution *)

Section ParameterResolver.
Local Open Scope Q_scope.

(** [determineBorderRadius(specifiedRadius, halfWidth, halfHeight,
    videoWidth, videoHeight)]. *)
Definition determineBorderRadius (specifiedRadius : option Q)
    (halfWidth halfHeight videoWidth videoHeight : Q) : Q :=
  match specifiedRadius with
  | Some r =>
      let maxAllowedRadius := Qmax 1 (Qmin halfHeight halfWidth - 1) in
      if JS.gt r 0 then Qmin r maxAllowedRadius else 0
  | None =>
      let smallerDimension := Qmin halfWidth halfHeight in
      let videoScale := Qmin videoWidth videoHeight / 1080 in
      let baseRadius := Qmin (10 * videoScale) (smallerDimension / 4) in
      let maxAllowedRadius := Qmax 1 (smallerDimension - 1) in
      Qmin baseRadius maxAllowedRadius
  end.

(** [determineBottomMargin(specifiedMargin, videoHeight)]. *)
Definition determineBottomMargin (specifiedMargin : option Q)
    (videoHeight : Q) : Q :=
  match specifiedMargin with
  | Some m => m
  | None =>
      let baseMargin := Qfloor (videoHeight * (5 # 100)) in
      inject_Z (Z.max 60 (Z.min baseMargin (Qfloor (videoHeight * (1 # 10)))))
  end.

End ParameterResolver.

(** ** Rounded rectangle drawing *)

Section Drawing.
Local Open Scope Q_scope.

(** One drawing command of the vector path: [m x y], [l x y] or
    [b x1 y1 x2 y2 x3 y3], with the interpolated numbers kept as numbers. *)
Inductive DrawCmd : Type :=
| Move (x y : Q)
| Line (x y : Q)
| Bezier (x1 y1 x2 y2 x3 y3 : Q).

(** The local constant [effectiveBorderRadius] of
    [generateRoundedRectDrawing]: the radius the path is drawn with. *)
Definition drawnRadius (halfWidth halfHeight borderRadius : Q) : Q :=
  let maxAllowedRadius := Qmax 1 (Qmin halfHeight halfWidth - 1) in
  if JS.gt borderRadius 0 then Qmin borderRadius maxAllowedRadius else 0.

(** [generateRoundedRectDrawing(halfWidth, halfHeight, borderRadius)]. *)
Definition generateRoundedRectDrawing
    (halfWidth halfHeight borderRadius : Q) : list DrawCmd :=
  let effectiveBorderRadius := drawnRadius halfWidth halfHeight borderRadius in
  if JS.gt effectiveBorderRadius 0 then
    [ Move (- halfWidth + effectiveBorderRadius) (- halfHeight);
      Line (halfWidth - effectiveBorderRadius) (- halfHeight);
      Bezier halfWidth (- halfHeight)
             halfWidth (- halfHeight + effectiveBorderRadius)
             halfWidth (- halfHeight + effectiveBorderRadius);
      Line halfWidth (halfHeight - effectiveBorderRadius);
      Bezier halfWidth halfHeight
             (halfWidth - effectiveBorderRadius) halfHeight
             (halfWidth - effectiveBorderRadius) halfHeight;
      Line (- halfWidth + effectiveBorderRadius) halfHeight;
      Bezier (- halfWidth) halfHeight
             (- halfWidth) (halfHeight - effectiveBorderRadius)
             (- halfWidth) (halfHeight - effectiveBorderRadius);
      Line (- halfWidth) (- halfHeight + effectiveBorderRadius);
      Bezier (- halfWidth) (- halfHeight)
             (- halfWidth + effectiveBorderRadius) (- halfHeight)
             (- halfWidth + effectiveBorderRadius) (- halfHeight) ]
  else
    [ Move (- halfWidth) (- halfHeight);
      Line halfWidth (- halfHeight);
      Line halfWidth halfHeight;
      Line (- halfWidth) halfHeight;
      Line (- halfWidth) (- halfHeight) ].

End Drawing.

(** ** Timestamps *)

Section Timestamps.
Local Open Scope Q_scope.

(** The local constants [hours], [minutes] and [secs] of [formatAssTime]. *)
Definition hoursOf (seconds : Q) : Z := Qfloor (seconds / 3600).
Definition minutesOf (seconds : Q) : Z := Qfloor (JS.rem seconds 3600 / 60).
Definition secsOf (seconds : Q) : Q := JS.rem seconds 60.

(** [formatAssTime(seconds)]. *)
Definition formatAssTime (seconds : Q) : string :=
  let hours := hoursOf seconds in
  let minutes := minutesOf seconds in
  let secs := secsOf seconds in
  (JS.intToString hours ++ ":"
     ++ JS.padStart0 2 (JS.intToString minutes) ++ ":"
     ++ JS.padStart0 5 (JS.toFixed2 secs))%string.

(** The number of hundredths the seconds field is printed from. *)
Definition centisecondsOf (seconds : Q) : Z := JS.hundredths (secsOf seconds).

End Timestamps.

(** ** Subtitle text *)

(** The UTF-16 code units of a JavaScript string. *)
Definition jsstring : Type := list N.

Module Text.
Local Open Scope N_scope.

(** The code units of a literal written in the source. *)
Fixpoint lit (s : string) : jsstring :=
  match s with
  | EmptyString => []
  | String c rest => N_of_ascii c :: lit rest
  end.

Definition backslash : N := 92.
Definition capitalN : N := 78.
Definition openBrace : N := 123.
Definition closeBrace : N := 125.
Definition space : N := 32.
Definition newline : N := 10.

(** The characters that [.] does not match in a regular expression. *)
Definition isLineTerminator (c : N) : bool :=
  (c =? 10) || (c =? 13) || (c =? 8232) || (c =? 8233).

(** A pattern tried at the head of the remaining text: the length of
    its match there, if it matches. *)
Definition matcher : Type := jsstring -> option nat.

(** [/\\N/]: a backslash followed by a capital N. *)
Definition matchBreak : matcher := fun s =>
  match s with
  | a :: b :: _ => if (a =? backslash) && (b =? capitalN) then Some 2%nat else None
  | _ => None
  end.

(** [/\n/]: a line feed. *)
Definition matchNewline : matcher := fun s =>
  match s with
  | a :: _ => if a =? newline then Some 1%nat else None
  | _ => None
  end.

(** The lazy [.*?\}] after an opening brace: the number of code units up
    to and including the first closing brace, provided no line
    terminator comes before it. *)
Fixpoint closeTag (s : jsstring) : option nat :=
  match s with
  | [] => None
  | c :: rest =>
      if c =? closeBrace then Some 1%nat
      else if isLineTerminator c then None
      else option_map S (closeTag rest)
  end.

(** [/\{.*?\}/]. *)
Definition matchTag : matcher := fun s =>
  match s with
  | c :: rest => if c =? openBrace then option_map S (closeTag rest) else None
  | [] => None
  end.

(** [s.replace(/p/g, rep)] for a pattern that never matches the empty
    string: scan from the left; where the pattern matches, emit [rep] and
    resume after the match ([skip] counts the matched code units still to
    pass over), elsewhere keep the code unit. *)
Fixpoint replaceAllFrom (m : matcher) (rep : jsstring) (skip : nat)
    (s : jsstring) : jsstring :=
  match s with
  | [] => []
  | c :: rest =>
      match skip with
      | S k => replaceAllFrom m rep k rest
      | O =>
          match m s with
          | Some (S k) => rep ++ replaceAllFrom m rep k rest
          | _ => c :: replaceAllFrom m rep 0 rest
          end
      end
  end.

Definition replaceAll (m : matcher) (rep : jsstring) (s : jsstring) : jsstring :=
  replaceAllFrom m rep 0 s.

(** [(s.match(/p/g) || []).length]: the number of matches of the same scan. *)
Fixpoint countAllFrom (m : matcher) (skip : nat) (s : jsstring) : nat :=
  match s with
  | [] => 0
  | c :: rest =>
      match skip with
      | S k => countAllFrom m k rest
      | O =>
          match m s with
          | Some (S k) => S (countAllFrom m k rest)
          | _ => countAllFrom m 0 rest
          end
      end
  end.

Definition countAll (m : matcher) (s : jsstring) : nat := countAllFrom m 0 s.

(** [/[lo-hi]/] on one code unit. *)
Definition inRange (lo hi c : N) : bool := (lo <=? c) && (c <=? hi).

(** [parts.join(sep)]. *)
Fixpoint join (sep : jsstring) (parts : list jsstring) : jsstring :=
  match parts with
  | [] => []
  | p :: rest =>
      match rest with
      | [] => p
      | _ => p ++ sep ++ join sep rest
      end
  end.

End Text.

(** ** Script detection *)

Inductive Script : Type := cjk | arabic | hebrew | latin.

Definition isCjkUnit (c : N) : bool :=
  Text.inRange 0x3000 0x9fff c || Text.inRange 0xf900 0xfaff c.

Definition isArabicUnit (c : N) : bool := Text.inRange 0x0600 0x06FF c.

Definition isHebrewUnit (c : N) : bool := Text.inRange 0x0590 0x05FF c.

(** [detectScript(text)]. *)
Definition detectScript (text : jsstring) : Script :=
  if existsb isCjkUnit text then cjk
  else if existsb isArabicUnit text then arabic
  else if existsb isHebrewUnit text then hebrew
  else latin.

(** [isRtlScript(script)]: membership in [['arabic', 'hebrew']]. *)
Definition isRtlScript (script : Script) : bool :=
  match script with
  | arabic | hebrew => true
  | cjk | latin => false
  end.

(** ** Heuristic text dimensions *)

Record TextMetrics : Type := { width : Q; height : Q }.

Section Estimator.
Local Open Scope Q_scope.

(** The number [n] of a [length]. *)
Definition ofNat (n : nat) : Q := inject_Z (Z.of_nat n).

(** The local constant [cleanText] of [calculateTextDimensions]. *)
Definition cleanText (text : jsstring) : jsstring :=
  Text.replaceAll Text.matchBreak [Text.space]
    (Text.replaceAll Text.matchTag [] text).

(** [calculateTextDimensions(text, fontName, fontSize, videoWidth)]. *)
Definition calculateTextDimensions (text : jsstring) (fontName : string)
    (fontSize videoWidth : Q) : TextMetrics :=
  let charWidth := fontSize * (6 # 10) in
  let estimatedWidth :=
    Qmin (ofNat (length (cleanText text)) * charWidth) (videoWidth * (9 # 10)) in
  let lineCount := (Text.countAll Text.matchBreak text + 1)%nat in
  let lineHeight := fontSize * (12 # 10) in
  let estimatedHeight := lineHeight * ofNat lineCount in
  {| width := estimatedWidth; height := estimatedHeight |}.

End Estimator.

(** ** Cues and timing *)

Module Cue.
(** A cue: [{ index, start, end, text }], times in seconds. *)
Record t : Type := mk { index : nat; start : Q; end_ : Q; text : jsstring }.

(** [currentSub.end = v]. *)
Definition set_end (c : t) (v : Q) : t :=
  {| index := index c; start := start c; end_ := v; text := text c |}.
End Cue.

(** An entry of the subtitle parser ([item.data]): times in milliseconds. *)
Record ParsedCue : Type := { p_start : Q; p_end : Q; p_text : jsstring }.

Section Parsing.
Local Open Scope Q_scope.

(** The callback of [parsedSubtitles.map((sub, index) => ...)]. *)
Definition toInternal (index : nat) (sub : ParsedCue) : Cue.t :=
  {| Cue.index := index + 1;
     Cue.start := p_start sub / 1000;
     Cue.end_ := p_end sub / 1000;
     Cue.text := Text.replaceAll Text.matchNewline (Text.lit "\N") (p_text sub) |}.

(** The condition [nextSub.start - currentSub.end < 0.1], computed as the
    program computes it.  A cue of the model holds a time as the exact
    quotient; the number the program holds is the double nearest to it, the
    difference of the two doubles is rounded again, and the result is
    compared with the double of the literal. *)
Definition smallGap (currentSub nextSub : Cue.t) : bool :=
  JS.lt (JS.sub (JS.double (Cue.start nextSub)) (JS.double (Cue.end_ currentSub)))
    JS.tenth.

(** The body of the timing loop at index [i]. *)
Definition fixTimingAt (subtitles : list Cue.t) (i : nat) : list Cue.t :=
  match subtitles !! i, subtitles !! (i + 1)%nat with
  | Some currentSub, Some nextSub =>
      if smallGap currentSub nextSub
      then <[i := Cue.set_end currentSub (Cue.start nextSub)]> subtitles
      else subtitles
  | _, _ => subtitles
  end.

(** [for (let i = 0; i < subtitles.length - 1; i++) { ... }]. *)
Definition fixTiming (subtitles : list Cue.t) : list Cue.t :=
  fold_left fixTimingAt (seq 0 (length subtitles - 1)) subtitles.

(** [parseSubtitles], from the cue entries the parser library found. *)
Definition parseSubtitles (parsedSubtitles : list ParsedCue) : list Cue.t :=
  fixTiming (imap toInternal parsedSubtitles).

End Parsing.

(** ** Configuration *)

(** The options object of [createRoundedAss]. *)
Record Options : Type := {
  opt_font : option string;
  opt_fontSize : option Q;
  opt_textColor : option string;
  opt_bgColor : option string;
  opt_opacity : option Z;
  opt_bgAlpha : option Z;
  opt_paddingX : option Q;
  opt_paddingY : option Q;
  opt_radius : option Q;
  opt_marginBottom : option Q;
  opt_minWidthRatio : option Q;
  opt_maxWidthRatio : option Q;
  opt_disableMinWidth : option bool;
  opt_useAssMeasure : option bool
}.

(** [options = {}]. *)
Definition noOptions : Options :=
  {| opt_font := None; opt_fontSize := None; opt_textColor := None;
     opt_bgColor := None; opt_opacity := None; opt_bgAlpha := None;
     opt_paddingX := None; opt_paddingY := None; opt_radius := None;
     opt_marginBottom := None; opt_minWidthRatio := None;
     opt_maxWidthRatio := None; opt_disableMinWidth := None;
     opt_useAssMeasure := None |}.

(** [s || d] on a string: the empty string is falsy. *)
Definition or_elseS (v : option string) (d : string) : string :=
  match v with
  | Some EmptyString | None => d
  | Some s => s
  end.

Module Config.
(** The object [config]. *)
Record t : Type := {
  font : string;
  fontSize : Q;
  textColor : string;
  bgColor : string;
  bgAlpha : Z;
  paddingX : Q;
  paddingY : Q;
  radius : option Q;
  marginBottom : option Q
}.

Definition resolve (options : Options) : t :=
  {| font := or_elseS (opt_font options) "Arial";
     fontSize := JS.or_else (opt_fontSize options) 48;
     textColor := or_elseS (opt_textColor options) "FFFFFF";
     bgColor := or_elseS (opt_bgColor options) "000000";
     bgAlpha := JS.or_elseZ (opt_opacity options) 0;
     paddingX := JS.or_else (opt_paddingX options) 20;
     paddingY := JS.or_else (opt_paddingY options) 10;
     radius := opt_radius options;
     marginBottom := opt_marginBottom options |}.
End Config.

(** The object [extendedConfig]: the fields of [config] that the event
    loop reads, and the additional ones. *)
Record ExtendedConfig : Type := {
  bgColor : string;
  bgAlpha : Z;
  paddingV : Q;
  paddingH : Q;
  minWidthRatio : Q;
  maxWidthRatio : Q;
  fontName : string;
  disableMinWidth : bool;
  useAssMeasure : bool
}.

Definition extendConfig (options : Options) (config : Config.t) : ExtendedConfig :=
  {| bgColor := Config.bgColor config;
     bgAlpha :=
       JS.or_elseZ (opt_bgAlpha options)
         (JS.or_elseZ (Some (Config.bgAlpha config)) 80);
     paddingV := Config.paddingY config;
     paddingH := Config.paddingX config;
     minWidthRatio := JS.or_else (opt_minWidthRatio options) 0;
     maxWidthRatio := JS.or_else (opt_maxWidthRatio options) 1;
     fontName := Config.font config;
     disableMinWidth := JS.defined_or (opt_disableMinWidth options) true;
     useAssMeasure := JS.defined_or (opt_useAssMeasure options) true |}.

(** The resolved configuration of a call with these options. *)
Definition resolveConfig (options : Options) : ExtendedConfig :=
  extendConfig options (Config.resolve options).

(** ** Events *)

(** The background line of a cue, layer 0, style [Box-BG]: the values the
    template interpolates. *)
Record BackgroundEvent : Type := {
  bg_start : string;
  bg_end : string;
  bg_posX : Q;
  bg_posY : Q;
  bg_colour : string;
  bg_alphaHex : string;
  bg_drawing : list DrawCmd
}.

(** The text line of a cue, layer 1, style [Default]: after the override
    block come the marker and the cue text. *)
Record TextEvent : Type := {
  tx_start : string;
  tx_end : string;
  tx_posX : Q;
  tx_posY : Q;
  tx_rtlMarker : jsstring;
  tx_text : jsstring
}.

Inductive Event : Type :=
| Background (e : BackgroundEvent)
| Dialogue (e : TextEvent).

(** The right-to-left override marker, the seven characters [\u+F220]. *)
Definition rtlMarker : jsstring := Text.lit "\u+F220".

(** The half sizes of a cue's box and the radius passed to the drawing. *)
Record Box : Type := {
  halfWidth : Q;
  halfHeight : Q;
  effectiveBorderRadius : Q
}.

Record CanvasSize : Type := { videoWidth : Q; videoHeight : Q }.

Definition defaultCanvas : CanvasSize := {| videoWidth := 1920; videoHeight := 1080 |}.

(** What the header is built from. *)
Record Document : Type := {
  doc_canvas : CanvasSize;
  doc_language : Script;
  doc_fontName : string;
  doc_fontSize : Q;
  doc_marginBottom : Q;
  doc_events : list Event
}.

Inductive Error : Type := NoSubtitlesFound.

Section EventLoop.
Local Open Scope Q_scope.

(** The font chosen for the predominant script when none was given. *)
Definition chooseFont (options : Options) (extendedConfig : ExtendedConfig)
    (win32 : bool) (predominantScript : Script) : string :=
  match or_elseS (opt_font options) "" with
  | EmptyString =>
      match predominantScript with
      | cjk => if win32 then "Microsoft YaHei" else "Noto Sans CJK SC"
      | arabic => if win32 then "Traditional Arabic" else "Noto Sans Arabic"
      | hebrew => if win32 then "David" else "Noto Sans Hebrew"
      | latin => fontName extendedConfig
      end
  | _ => fontName extendedConfig
  end%string.

(** [textWidth] and [textHeight] of the cue at [idx]: the measured
    dimensions when the measurer returned a line for it, the estimate
    otherwise. *)
Definition cueTextMetrics (subtitleDimensions : option (list TextMetrics))
    (fontName : string) (fontSize : Q) (canvas : CanvasSize)
    (idx : nat) (sub : Cue.t) : TextMetrics :=
  match subtitleDimensions with
  | Some dims =>
      match dims !! idx with
      | Some measured => measured
      | None =>
          calculateTextDimensions (Cue.text sub) fontName fontSize (videoWidth canvas)
      end
  | None =>
      calculateTextDimensions (Cue.text sub) fontName fontSize (videoWidth canvas)
  end.

(** [boxWidth] as first assigned: the text width with the padding added. *)
Definition paddedWidth (extendedConfig : ExtendedConfig) (textWidth : Q) : Q :=
  if Qeq_bool (paddingH extendedConfig) 0 then textWidth + 2
  else textWidth + paddingH extendedConfig * 2.

(** [boxWidth] at the end of the loop body. *)
Definition cueBoxWidth (extendedConfig : ExtendedConfig) (canvas : CanvasSize)
    (textWidth : Q) : Q :=
  let minWidth :=
    if disableMinWidth extendedConfig then 0
    else videoWidth canvas * minWidthRatio extendedConfig in
  let maxWidth := videoWidth canvas * maxWidthRatio extendedConfig in
  let boxWidth := paddedWidth extendedConfig textWidth in
  let boxWidth := Qmin boxWidth (videoWidth canvas * (98 # 100)) in
  let boxWidth :=
    if negb (disableMinWidth extendedConfig) then Qmax boxWidth minWidth
    else boxWidth in
  Qmin boxWidth maxWidth.

(** [boxHeight]. *)
Definition cueBoxHeight (extendedConfig : ExtendedConfig) (textHeight : Q) : Q :=
  textHeight + paddingV extendedConfig * 2.

(** [halfWidth], [halfHeight] and [effectiveBorderRadius] of the loop body. *)
Definition cueBox (options : Options) (extendedConfig : ExtendedConfig)
    (canvas : CanvasSize) (metrics : TextMetrics) : Box :=
  let halfWidth := cueBoxWidth extendedConfig canvas (width metrics) / 2 in
  let halfHeight := cueBoxHeight extendedConfig (height metrics) / 2 in
  {| halfWidth := halfWidth;
     halfHeight := halfHeight;
     effectiveBorderRadius :=
       determineBorderRadius (opt_radius options) halfWidth halfHeight
         (videoWidth canvas) (videoHeight canvas) |}.

(** The marker put before the text of a cue. *)
Definition currentRtlMarker (textScript : Script) : jsstring :=
  if isRtlScript textScript then rtlMarker else [].

(** One turn of the event loop: the two lines pushed for the cue at [idx]. *)
Definition cueEvents (options : Options) (extendedConfig : ExtendedConfig)
    (canvas : CanvasSize) (fontName : string) (fontSize marginBottom : Q)
    (subtitleDimensions : option (list TextMetrics))
    (idx : nat) (sub : Cue.t) : list Event :=
  let startTime := formatAssTime (Cue.start sub) in
  let endTime := formatAssTime (Cue.end_ sub) in
  let yPos := videoHeight canvas - marginBottom in
  let textScript := detectScript (Cue.text sub) in
  let metrics :=
    cueTextMetrics subtitleDimensions fontName fontSize canvas idx sub in
  let box := cueBox options extendedConfig canvas metrics in
  let bgAlphaHex := JS.padStart0 2 (JS.intToHex (bgAlpha extendedConfig)) in
  let bg :=
    {| bg_start := startTime; bg_end := endTime;
       bg_posX := videoWidth canvas / 2; bg_posY := yPos;
       bg_colour := bgColor extendedConfig; bg_alphaHex := bgAlphaHex;
       bg_drawing :=
         generateRoundedRectDrawing (halfWidth box) (halfHeight box)
           (effectiveBorderRadius box) |} in
  let text :=
    {| tx_start := startTime; tx_end := endTime;
       tx_posX := videoWidth canvas / 2; tx_posY := yPos;
       tx_rtlMarker := currentRtlMarker textScript;
       tx_text := Cue.text sub |} in
  [Background bg; Dialogue text].

(** [createRoundedAss], from the parsed cues, the probed canvas (if any)
    and the answer of the measurer (if any). *)
Definition createRoundedAss (subtitles : list Cue.t) (probe : option CanvasSize)
    (measurement : option (list TextMetrics)) (win32 : bool)
    (options : Options) : Error + Document :=
  let config := Config.resolve options in
  match subtitles with
  | [] => inl NoSubtitlesFound
  | _ =>
      let canvas := JS.defined_or probe defaultCanvas in
      let extendedConfig := extendConfig options config in
      let fontSize :=
        JS.or_else (Some (Config.fontSize config))
          (inject_Z (Qfloor (videoHeight canvas / 20))) in
      let allText :=
        Text.join [Text.space] (map Cue.text subtitles) in
      let predominantScript := detectScript allText in
      let fontName := chooseFont options extendedConfig win32 predominantScript in
      let marginBottom :=
        determineBottomMargin (opt_marginBottom options) (videoHeight canvas) in
      let subtitleDimensions :=
        if useAssMeasure extendedConfig then measurement else None in
      inr {| doc_canvas := canvas;
             doc_language := predominantScript;
             doc_fontName := fontName;
             doc_fontSize := fontSize;
             doc_marginBottom := marginBottom;
             doc_events :=
               concat (imap (cueEvents options extendedConfig canvas fontName
                               fontSize marginBottom subtitleDimensions)
                         subtitles) |}
  end.

End EventLoop.

(** ** Notions used to state the properties *)

Section Notions.
Local Open Scope Q_scope.

(** [r] is [x] clamped to the interval from [lo] to [hi]: a point of the
    interval, [x] itself when [x] is inside, the nearer end otherwise. *)
Definition clampedTo (lo hi x r : Q) : Prop :=
  lo <= r <= hi
  /\ (lo <= x <= hi -> r == x)
  /\ (x < lo -> r == lo)
  /\ (hi < x -> r == hi).

(** [x] clamped to the interval from [lo] to [hi]: lowered to [hi] and
    then raised to [lo]. *)
Definition clamp (lo hi x : Q) : Q := Qmax lo (Qmin x hi).

Definition baseMarginOf (videoHeight : Q) : Q :=
  inject_Z (Qfloor (videoHeight * (5 # 100))).

Definition tenthOf (videoHeight : Q) : Q :=
  inject_Z (Qfloor (videoHeight * (1 # 10))).

(** The vertical position written into an event. *)
Definition eventPosY (e : Event) : Q :=
  match e with
  | Background bg => bg_posY bg
  | Dialogue tx => tx_posY tx
  end.

(** The cue at [j] after the pass, read off the cues before the pass:
    its end is moved to the start of its successor when the program finds
    the gap between them below a tenth of a second. *)
Definition adjusted (subtitles : list Cue.t) (j : nat) : option Cue.t :=
  match subtitles !! j, subtitles !! (j + 1)%nat with
  | Some currentSub, Some nextSub =>
      Some (if smallGap currentSub nextSub
            then Cue.set_end currentSub (Cue.start nextSub)
            else currentSub)
  | o, _ => o
  end.

(** An entry whose times are whole numbers of milliseconds, from 0 up to
    [2^40] (some 34 years). *)
Definition wholeMs (sub : ParsedCue) : Prop :=
  exists a b : Z,
    (0 <= a <= 2 ^ 40)%Z /\ (0 <= b <= 2 ^ 40)%Z
    /\ p_start sub = inject_Z a /\ p_end sub = inject_Z b.

(** Two pairs of entries exactly 100 milliseconds apart: 0.2 to 0.3, where
    the rounded difference falls below the literal 0.1, and 1.0 to 1.1, where
    it falls above. *)
Definition gapAtPointTwo : list ParsedCue :=
  [ {| p_start := 0; p_end := 200; p_text := Text.lit "Hi" |};
    {| p_start := 300; p_end := 1000; p_text := Text.lit "Bye" |} ].

Definition gapAtOne : list ParsedCue :=
  [ {| p_start := 0; p_end := 1000; p_text := Text.lit "Hi" |};
    {| p_start := 1100; p_end := 2000; p_text := Text.lit "Bye" |} ].

(** The cues of the end-to-end example: 0.0 to 1.0 and 1.05 to 2.0. *)
Definition exampleParsed : list ParsedCue :=
  [ {| p_start := 0; p_end := 1000; p_text := Text.lit "Hi" |};
    {| p_start := 1050; p_end := 2000; p_text := Text.lit "Bye" |} ].

Definition exampleCues : list Cue.t :=
  Eval vm_compute in parseSubtitles exampleParsed.

End Notions.

(** Two cues of different scripts: the document is CJK, the second cue
    Arabic. *)
Definition mixedCues : list Cue.t :=
  [ Cue.mk 1 0 1 [0x4e2d; 0x6587]%N;
    Cue.mk 2 2 3 [0x0645; 0x0631; 0x062d; 0x0628; 0x0627]%N ].

(** The number of forced line breaks in a text: the positions at which
    a backslash is followed by a capital N. *)
Fixpoint countBreaks (s : jsstring) : nat :=
  match s with
  | [] => 0
  | a :: rest =>
      match rest with
      | b :: _ =>
          (if (a =? Text.backslash)%N && (b =? Text.capitalN)%N then 1 else 0)
          + countBreaks rest
      | [] => 0
      end
  end%nat.

(** The code units that end a line. *)
Definition lineTerminator (c : N) : Prop :=
  (c = 10 \/ c = 13 \/ c = 8232 \/ c = 8233)%N.

(** What stands between the braces of a tag span: no closing brace and
    nothing that ends the line. *)
Definition tagBody (tag : jsstring) : Prop :=
  forall c, In c tag -> c <> Text.closeBrace /\ ~ lineTerminator c.

(** The text begins with a tag span: an opening brace, a body and the
    closing brace. *)
Definition startsWithTag (text : jsstring) : Prop :=
  exists tag rest,
    tagBody tag /\ text = Text.openBrace :: tag ++ Text.closeBrace :: rest.

(** [TagSpansRemoved text out]: [out] is [text] without its tag spans,
    read from the left; a code unit that begins no tag span is kept. *)
Inductive TagSpansRemoved : jsstring -> jsstring -> Prop :=
| tsr_nil : TagSpansRemoved [] []
| tsr_tag (tag rest out : jsstring) :
    tagBody tag -> TagSpansRemoved rest out ->
    TagSpansRemoved (Text.openBrace :: tag ++ Text.closeBrace :: rest) out
| tsr_keep (c : N) (rest out : jsstring) :
    ~ startsWithTag (c :: rest) -> TagSpansRemoved rest out ->
    TagSpansRemoved (c :: rest) (c :: out).

(** [BreaksSpaced text out]: [out] is [text] with one space in place of
    each forced line break, read from the left. *)
Inductive BreaksSpaced : jsstring -> jsstring -> Prop :=
| bs_nil : BreaksSpaced [] []
| bs_break (rest out : jsstring) :
    BreaksSpaced rest out ->
    BreaksSpaced (Text.backslash :: Text.capitalN :: rest) (Text.space :: out)
| bs_keep (c : N) (rest out : jsstring) :
    (forall r, c :: rest <> Text.backslash :: Text.capitalN :: r) ->
    BreaksSpaced rest out ->
    BreaksSpaced (c :: rest) (c :: out).

(** The options object with only [paddingX] set. *)
Definition withPaddingX (p : Q) : Options :=
  {| opt_font := None; opt_fontSize := None; opt_textColor := None;
     opt_bgColor := None; opt_opacity := None; opt_bgAlpha := None;
     opt_paddingX := Some p; opt_paddingY := None; opt_radius := None;
     opt_marginBottom := None; opt_minWidthRatio := None;
     opt_maxWidthRatio := None; opt_disableMinWidth := None;
     opt_useAssMeasure := None |}.

(** The options object with only [opacity] and [bgAlpha] set. *)
Definition withAlpha (opacity bgAlpha : Z) : Options :=
  {| opt_font := None; opt_fontSize := None; opt_textColor := None;
     opt_bgColor := None; opt_opacity := Some opacity;
     opt_bgAlpha := Some bgAlpha;
     opt_paddingX := None; opt_paddingY := None; opt_radius := None;
     opt_marginBottom := None; opt_minWidthRatio := None;
     opt_maxWidthRatio := None; opt_disableMinWidth := None;
     opt_useAssMeasure := None |}.

(** A resolved configuration with no horizontal padding and the default
    width bounds. *)
Definition tightConfig : ExtendedConfig :=
  {| bgColor := "000000"; bgAlpha := 80; paddingV := 10; paddingH := 0;
     minWidthRatio := 0; maxWidthRatio := 1; fontName := "Arial";
     disableMinWidth := true; useAssMeasure := true |}.

(** An alpha option that is left out or set to 0. *)
Definition unsetOrZero (v : option Z) : Prop := v = None \/ v = Some 0%Z.

(** ** Notions for the drawing *)

(** The points a drawing command names, control points included. *)
Definition cmdPoints (c : DrawCmd) : list (Q * Q) :=
  match c with
  | Move x y => [(x, y)]
  | Line x y => [(x, y)]
  | Bezier x1 y1 x2 y2 x3 y3 => [(x1, y1); (x2, y2); (x3, y3)]
  end.

(** The point at which the pen is after a command. *)
Definition endPoint (c : DrawCmd) : Q * Q :=
  match c with
  | Move x y => (x, y)
  | Line x y => (x, y)
  | Bezier _ _ _ _ x3 y3 => (x3, y3)
  end.

Definition isBezier (c : DrawCmd) : bool :=
  match c with
  | Bezier _ _ _ _ _ _ => true
  | _ => false
  end.

(** A point of the rectangle with the given half sizes, centred at the
    origin. *)
Definition inBox (halfWidth halfHeight : Q) (p : Q * Q) : Prop :=
  (- halfWidth <= fst p <= halfWidth /\ - halfHeight <= snd p <= halfHeight)%Q.

(** The width of a drawing: from its leftmost to its rightmost point. *)
Definition drawingWidth (cmds : list DrawCmd) : Q :=
  let xs := map fst (concat (map cmdPoints cmds)) in
  (fold_right Qmax (hd 0 xs) xs - fold_right Qmin (hd 0 xs) xs)%Q.

(** One cue, and the answer of the measurer for it: a text 50 wide and
    30 high. *)
Definition oneCue : list Cue.t := [Cue.mk 1 0 1 (Text.lit "Hi")].

Definition measured50 : list TextMetrics := [ {| width := 50; height := 30 |} ].

(** ** Notions for parsing and scripts *)

(** The number of line feeds in a text. *)
Definition countNewlines (s : jsstring) : nat :=
  length (List.filter (fun c => (c =? Text.newline)%N) s).

(** The order in which the scripts are tested: a smaller rank is tested
    earlier. *)
Definition scriptRank (script : Script) : nat :=
  match script with
  | cjk => 0
  | arabic => 1
  | hebrew => 2
  | latin => 3
  end.

(** ** Notions for options and printed numbers *)

(** The options object with only [font] set. *)
Definition withFont (f : string) : Options :=
  {| opt_font := Some f; opt_fontSize := None; opt_textColor := None;
     opt_bgColor := None; opt_opacity := None; opt_bgAlpha := None;
     opt_paddingX := None; opt_paddingY := None; opt_radius := None;
     opt_marginBottom := None; opt_minWidthRatio := None;
     opt_maxWidthRatio := None; opt_disableMinWidth := None;
     opt_useAssMeasure := None |}.

(** The options object with only [useAssMeasure] set, to false. *)
Definition measureOff : Options :=
  {| opt_font := None; opt_fontSize := None; opt_textColor := None;
     opt_bgColor := None; opt_opacity := None; opt_bgAlpha := None;
     opt_paddingX := None; opt_paddingY := None; opt_radius := None;
     opt_marginBottom := None; opt_minWidthRatio := None;
     opt_maxWidthRatio := None; opt_disableMinWidth := None;
     opt_useAssMeasure := Some false |}.

(** What [toFixed(2)] prints for a number that is not negative, from the
    hundredths it rounds to. *)
Definition fixedDigits (n : Z) : string :=
  let digits := JS.padStart0 3 (JS.intToString n) in
  let k := (String.length digits - 2)%nat in
  (substring 0 k digits ++ "." ++ substring k 2 digits)%string.

(** The number a string of hexadecimal digits stands for. *)
Definition decodeHex (s : string) : option N :=
  option_map N.of_hex_uint (HexadecimalString.NilZero.uint_of_string s).

(** The checks run over all minutes and all hundredths a timestamp can
    hold, and over all alpha values of a byte. *)
Definition minutesFieldOk (n : nat) : bool :=
  (String.length (JS.padStart0 2 (JS.intToString (Z.of_nat n))) =? 2)%nat.

Definition secondsFieldOk (n : nat) : bool :=
  let field := JS.padStart0 5 (fixedDigits (Z.of_nat n)) in
  (String.length field =? 5)%nat
  && match String.get 2 field with
     | Some c => Ascii.eqb c "."
     | None => false
     end.

Definition alphaFieldOk (n : nat) : bool :=
  let field := JS.padStart0 2 (JS.intToHex (Z.of_nat n)) in
  (String.length field =? 2)%nat
  && match decodeHex field with
     | Some v => (v =? N.of_nat n)%N
     | None => false
     end.

(** Replaces every [Qmin] and [Qmax] by a fresh number with its defining
    case split, innermost last, so that linear arithmetic can finish. *)
Ltac name_minmax :=
  repeat match goal with
  | |- context [Qmin ?a ?b] =>
      let m := fresh "m" in
      let H := fresh "Hmin" in
      pose proof (Q.min_spec_le a b) as H;
      set (m := Qmin a b) in *; clearbody m
  | |- context [Qmax ?a ?b] =>
      let m := fresh "m" in
      let H := fresh "Hmax" in
      pose proof (Q.max_spec_le a b) as H;
      set (m := Qmax a b) in *; clearbody m
  | _ : context [Qmin ?a ?b] |- _ =>
      let m := fresh "m" in
      let H := fresh "Hmin" in
      pose proof (Q.min_spec_le a b) as H;
      set (m := Qmin a b) in *; clearbody m
  | _ : context [Qmax ?a ?b] |- _ =>
      let m := fresh "m" in
      let H := fresh "Hmax" in
      pose proof (Q.max_spec_le a b) as H;
      set (m := Qmax a b) in *; clearbody m
  end.

Ltac minmax_lra := name_minmax; intuition lra.

(** * Properties *)

(** ** The functions on sample inputs *)

Example formatAssTime_ex1 : formatAssTime (3725 + (1 # 2)) = "1:02:05.50"%string.
Proof. vm_compute. reflexivity. Qed.

Example formatAssTime_ex2 : formatAssTime (105 # 100) = "0:00:01.05"%string.
Proof. vm_compute. reflexivity. Qed.

Example toFixed2_small : JS.toFixed2 (4 # 1000) = "0.00"%string.
Proof. vm_compute. reflexivity. Qed.

Example intToHex_80 : JS.intToHex 80 = "50"%string.
Proof. vm_compute. reflexivity. Qed.

Example radius_ex :
  Qeq_bool (determineBorderRadius (Some 1000%Q) 40 20 1920 1080) 19 = true.
Proof. vm_compute. reflexivity. Qed.

Example replace_tags_ex :
  Text.replaceAll Text.matchTag [] (Text.lit "{\i1}Hi{\i0} {x") = Text.lit "Hi {x".
Proof. vm_compute. reflexivity. Qed.

Example replace_break_ex :
  Text.replaceAll Text.matchBreak [Text.space] (Text.lit "a\Nb\\Nc") = Text.lit "a b\ c".
Proof. vm_compute. reflexivity. Qed.

Example heuristic_ex :
  let e := calculateTextDimensions (Text.lit "{\an8}Hello\Nbig world") "Arial" 48 1920 in
  Qeq_bool (width e) (Qmake 4320 10) && Qeq_bool (height e) (Qmake 1152 10) = true.
Proof. vm_compute. reflexivity. Qed.

Example exampleCues_parsed : exampleCues = parseSubtitles exampleParsed.
Proof. vm_compute. reflexivity. Qed.

Example double_tenth : (JS.tenth == 3602879701896397 # 36028797018963968)%Q.
Proof. vm_compute. reflexivity. Qed.

Example double_gap_at_point_two :
  (JS.sub (JS.double (300 / 1000)) (JS.double (200 / 1000))
   == 900719925474099 # 9007199254740992)%Q.
Proof. vm_compute. reflexivity. Qed.

Example double_gap_at_one :
  (JS.sub (JS.double (1100 / 1000)) (JS.double (1000 / 1000))
   == 225179981368525 # 2251799813685248)%Q.
Proof. vm_compute. reflexivity. Qed.

(** ** Order reasoning on rationals *)

Lemma lt_true_iff (a b : Q) : JS.lt a b = true <-> (a < b)%Q.
Proof.
  unfold JS.lt. rewrite Qlt_alt.
  destruct (a ?= b)%Q; split; intros H; congruence.
Qed.

Lemma lt_false_iff (a b : Q) : JS.lt a b = false <-> (b <= a)%Q.
Proof.
  rewrite <- not_true_iff_false, lt_true_iff. split.
  - apply Qnot_lt_le.
  - apply Qle_not_lt.
Qed.

Lemma gt_true_iff (a b : Q) : JS.gt a b = true <-> (b < a)%Q.
Proof. apply lt_true_iff. Qed.

Lemma gt_false_iff (a b : Q) : JS.gt a b = false <-> (a <= b)%Q.
Proof. apply lt_false_iff. Qed.

Section RadiusBounds.
Local Open Scope Q_scope.

(** The radius a path is drawn with lies between 0 and the largest
    radius the box allows, whatever radius is passed in. *)
Lemma drawnRadius_bounded (hw hh r : Q) :
  0 <= drawnRadius hw hh r <= Qmax 1 (Qmin hw hh - 1).
Proof.
  unfold drawnRadius.
  destruct (JS.gt r 0) eqn:Hr.
  - apply gt_true_iff in Hr. minmax_lra.
  - minmax_lra.
Qed.

(** A radius within the bounds is drawn as it is. *)
Lemma drawnRadius_id (hw hh r : Q) :
  0 <= r <= Qmax 1 (Qmin hw hh - 1) -> drawnRadius hw hh r == r.
Proof.
  intros [H0 H1]. unfold drawnRadius.
  destruct (JS.gt r 0) eqn:Hr.
  - apply gt_true_iff in Hr. minmax_lra.
  - apply gt_false_iff in Hr. lra.
Qed.

Lemma determineBorderRadius_specified (r hw hh vw vh : Q) :
  0 <= determineBorderRadius (Some r) hw hh vw vh <= Qmax 1 (Qmin hw hh - 1).
Proof. apply drawnRadius_bounded. Qed.

Lemma determineBorderRadius_auto (hw hh vw vh : Q) :
  0 <= hw -> 0 <= hh -> 0 <= vw -> 0 <= vh ->
  0 <= determineBorderRadius None hw hh vw vh <= Qmax 1 (Qmin hw hh - 1).
Proof.
  intros Hw Hh Hvw Hvh. unfold determineBorderRadius.
  assert (Hs : 0 <= Qmin vw vh / 1080).
  { apply Qle_shift_div_l; [reflexivity |]. minmax_lra. }
  assert (Hq : 0 <= Qmin hw hh / 4).
  { apply Qle_shift_div_l; [reflexivity |]. minmax_lra. }
  set (s := Qmin vw vh / 1080) in *. clearbody s.
  set (q := Qmin hw hh / 4) in *. clearbody q.
  minmax_lra.
Qed.

End RadiusBounds.

Section RadiusClaim.
Local Open Scope Q_scope.

(** C1. Whatever radius is requested, a number or none, the radius a
    cue's background box is drawn with lies between 0 and
    [max(1, min(halfWidth, halfHeight) - 1)].  The radius resolved by
    [determineBorderRadius] already lies in that range, and is drawn
    unchanged, when a radius was requested or when the box and the canvas
    have non-negative sizes.  A request of 1000 for a box with half sizes
    (40, 20) resolves to 19. *)
Theorem effective_radius_within_box :
  (forall specifiedRadius hw hh vw vh,
      0 <= drawnRadius hw hh (determineBorderRadius specifiedRadius hw hh vw vh)
        <= Qmax 1 (Qmin hw hh - 1))
  /\ (forall specifiedRadius hw hh vw vh,
        (specifiedRadius = None -> 0 <= hw /\ 0 <= hh /\ 0 <= vw /\ 0 <= vh) ->
        let r := determineBorderRadius specifiedRadius hw hh vw vh in
        0 <= r <= Qmax 1 (Qmin hw hh - 1) /\ drawnRadius hw hh r == r)
  /\ (forall vw vh,
        determineBorderRadius (Some 1000) 40 20 vw vh == 19
        /\ drawnRadius 40 20 (determineBorderRadius (Some 1000) 40 20 vw vh) == 19).
Proof.
  split; [| split].
  - intros. apply drawnRadius_bounded.
  - intros specifiedRadius hw hh vw vh Hauto r.
    assert (Hr : 0 <= r <= Qmax 1 (Qmin hw hh - 1)).
    { subst r. destruct specifiedRadius as [r0 |].
      - apply determineBorderRadius_specified.
      - destruct Hauto as (Hw & Hh & Hvw & Hvh); [reflexivity |].
        now apply determineBorderRadius_auto. }
    split; [exact Hr | now apply drawnRadius_id].
  - intros vw vh. split; vm_compute; reflexivity.
Qed.

Lemma effective_radius_within_box_witness :
  0 <= determineBorderRadius None 40 20 1920 1080 <= Qmax 1 (Qmin 40 20 - 1)
  /\ drawnRadius 40 20 (determineBorderRadius None 40 20 1920 1080)
     == determineBorderRadius None 40 20 1920 1080.
Proof.
  apply (proj1 (proj2 effective_radius_within_box) None 40 20 1920 1080).
  intros _. repeat split; discriminate.
Defined.

(** The same bound for the box of a cue as the event loop builds it. *)
Corollary cueBox_radius_bounded options extendedConfig canvas metrics :
  let box := cueBox options extendedConfig canvas metrics in
  0 <= drawnRadius (halfWidth box) (halfHeight box) (effectiveBorderRadius box)
    <= Qmax 1 (Qmin (halfWidth box) (halfHeight box) - 1).
Proof. intros box. apply drawnRadius_bounded. Qed.

End RadiusClaim.

(** ** Bottom margin *)

Section BottomMargin.
Local Open Scope Q_scope.

Lemma base_le_tenth (h : Q) : 0 <= h ->
  (Qfloor (h * (5 # 100)) <= Qfloor (h * (1 # 10)))%Z.
Proof. intros Hh. apply Qfloor_resp_le. lra. Qed.

Lemma tenth_ge_60 (h : Q) : 600 <= h -> (60 <= Qfloor (h * (1 # 10)))%Z.
Proof.
  intros Hh. change 60%Z with (Qfloor 60).
  apply Qfloor_resp_le. lra.
Qed.

Lemma tenth_lt_60 (h : Q) : h < 600 -> (Qfloor (h * (1 # 10)) < 60)%Z.
Proof.
  intros Hh.
  assert (H : inject_Z (Qfloor (h * (1 # 10))) < inject_Z 60).
  { eapply Qle_lt_trans; [apply Qfloor_le |]. change (inject_Z 60) with 60. lra. }
  now rewrite <- Zlt_Qlt in H.
Qed.

Lemma base_lt_60 (h : Q) : h < 600 -> (Qfloor (h * (5 # 100)) < 60)%Z.
Proof.
  intros Hh.
  assert (H : inject_Z (Qfloor (h * (5 # 100))) < inject_Z 60).
  { eapply Qle_lt_trans; [apply Qfloor_le |]. change (inject_Z 60) with 60. lra. }
  now rewrite <- Zlt_Qlt in H.
Qed.

(** The events of a document all sit at the same height. *)
Lemma cueEvents_posY options extendedConfig canvas fontName fontSize
    marginBottom subtitleDimensions idx sub :
  Forall (fun e => eventPosY e = videoHeight canvas - marginBottom)
    (cueEvents options extendedConfig canvas fontName fontSize marginBottom
       subtitleDimensions idx sub).
Proof. repeat constructor. Qed.

End BottomMargin.

Section DocumentShape.

(** What a successful call returns: the events are the two lines of each
    cue, in cue order, all built with the one resolved configuration,
    canvas, font and margin of the document. *)
Lemma createRoundedAss_inr subtitles probe measurement win32 options doc :
  createRoundedAss subtitles probe measurement win32 options = inr doc ->
  doc_canvas doc = JS.defined_or probe defaultCanvas
  /\ doc_marginBottom doc =
       determineBottomMargin (opt_marginBottom options)
         (videoHeight (doc_canvas doc))
  /\ doc_events doc =
       concat (imap (cueEvents options (resolveConfig options) (doc_canvas doc)
                       (doc_fontName doc) (doc_fontSize doc)
                       (doc_marginBottom doc)
                       (if useAssMeasure (resolveConfig options)
                        then measurement else None))
                 subtitles).
Proof.
  unfold createRoundedAss. destruct subtitles as [| sub rest].
  - discriminate.
  - intros [= <-]. cbn [doc_canvas doc_marginBottom doc_events doc_fontName
                          doc_fontSize]. repeat split.
Qed.

(** A property of both lines of every cue holds of every event. *)
Lemma doc_events_Forall (P : Event -> Prop) subtitles probe measurement
    win32 options doc :
  createRoundedAss subtitles probe measurement win32 options = inr doc ->
  (forall idx sub, subtitles !! idx = Some sub ->
      Forall P (cueEvents options (resolveConfig options) (doc_canvas doc)
                  (doc_fontName doc) (doc_fontSize doc) (doc_marginBottom doc)
                  (if useAssMeasure (resolveConfig options)
                   then measurement else None) idx sub)) ->
  Forall P (doc_events doc).
Proof.
  intros Hdoc Hcue.
  destruct (createRoundedAss_inr _ _ _ _ _ _ Hdoc) as (_ & _ & ->).
  apply Forall_concat, Forall_forall.
  intros evs Hin. apply elem_of_lookup_imap in Hin.
  destruct Hin as (idx & sub & -> & Hsub). now apply Hcue.
Qed.

End DocumentShape.

Section BottomMarginClaim.
Local Open Scope Q_scope.

(** The automatic margin as the code computes it, for any canvas. *)
Lemma bottom_margin_formula (h : Q) :
  determineBottomMargin None h == clamp 60 (tenthOf h) (baseMarginOf h).
Proof.
  unfold determineBottomMargin, clamp, baseMarginOf, tenthOf.
  set (b := Qfloor (h * (5 # 100))). set (t := Qfloor (h * (1 # 10))).
  change 60 with (inject_Z 60) at 1.
  destruct (Q.max_spec_le (inject_Z 60) (Qmin (inject_Z b) (inject_Z t)))
    as [[Hmx ->] | [Hmx ->]];
    destruct (Q.min_spec_le (inject_Z b) (inject_Z t))
      as [[Hmn Emn] | [Hmn Emn]];
    rewrite ?Emn in *; rewrite <- ?Zle_Qle in *;
    apply inject_Z_injective; lia.
Qed.

(** Below height 600 the interval from 60 to [floor(h * 0.1)] is empty and
    the code returns its lower end. *)
Lemma bottom_margin_below_600 (h : Q) :
  h < 600 -> determineBottomMargin None h == 60.
Proof.
  intros Hh. unfold determineBottomMargin.
  pose proof (base_lt_60 h Hh) as Hb.
  change 60 with (inject_Z 60). apply inject_Z_injective. lia.
Qed.

(** C7. A margin given by the caller is used as it is.  Otherwise the
    margin is [floor(h * 0.05)] clamped to the interval from 60 to
    [floor(h * 0.1)], at every canvas height [h]: on a canvas at least 600
    high it is a point of that interval, the base margin itself when that
    is inside and the nearer end otherwise; on a lower canvas the interval
    is empty and the margin is its lower end 60.  The margin is resolved
    once for the document and every event is placed with it. *)
Theorem bottom_margin_resolved :
  (forall m h, determineBottomMargin (Some m) h = m)
  /\ (forall h,
        determineBottomMargin None h == clamp 60 (tenthOf h) (baseMarginOf h))
  /\ (forall h, 600 <= h ->
        clampedTo 60 (tenthOf h) (baseMarginOf h) (determineBottomMargin None h))
  /\ (forall h, h < 600 -> determineBottomMargin None h == 60)
  /\ (forall subtitles probe measurement win32 options doc,
        createRoundedAss subtitles probe measurement win32 options = inr doc ->
        doc_marginBottom doc =
          determineBottomMargin (opt_marginBottom options)
            (videoHeight (doc_canvas doc))
        /\ Forall (fun e =>
                     eventPosY e
                     = videoHeight (doc_canvas doc) - doc_marginBottom doc)
             (doc_events doc)).
Proof.
  split; [| split; [| split; [| split]]].
  - reflexivity.
  - exact bottom_margin_formula.
  - intros h Hh. unfold clampedTo, determineBottomMargin, baseMarginOf, tenthOf.
    pose proof (base_le_tenth h ltac:(lra)) as Hbt.
    pose proof (tenth_ge_60 h Hh) as Ht.
    set (b := Qfloor (h * (5 # 100))) in *.
    set (t := Qfloor (h * (1 # 10))) in *.
    change 60 with (inject_Z 60).
    rewrite <- !Zle_Qle, <- !Zlt_Qlt, !inject_Z_injective. lia.
  - exact bottom_margin_below_600.
  - intros subtitles probe measurement win32 options doc Hdoc. split.
    + now destruct (createRoundedAss_inr _ _ _ _ _ _ Hdoc) as (_ & -> & _).
    + eapply doc_events_Forall; [exact Hdoc |].
      intros idx sub _. apply cueEvents_posY.
Qed.

Lemma bottom_margin_resolved_witness :
  clampedTo 60 (tenthOf 1080) (baseMarginOf 1080) (determineBottomMargin None 1080)
  /\ determineBottomMargin None 480 == 60
  /\ exists doc,
       createRoundedAss exampleCues None None false noOptions = inr doc
       /\ doc_marginBottom doc =
            determineBottomMargin (opt_marginBottom noOptions)
              (videoHeight (doc_canvas doc))
       /\ Forall (fun e =>
                    eventPosY e
                    = videoHeight (doc_canvas doc) - doc_marginBottom doc)
            (doc_events doc).
Proof.
  split; [| split].
  - apply (proj1 (proj2 (proj2 bottom_margin_resolved)) 1080).
    vm_compute. discriminate.
  - apply (proj1 (proj2 (proj2 (proj2 bottom_margin_resolved))) 480).
    reflexivity.
  - eexists. split; [reflexivity |].
    apply (proj2 (proj2 (proj2 (proj2 bottom_margin_resolved)))
             exampleCues None None false noOptions).
    reflexivity.
Defined.

End BottomMarginClaim.

(** ** Rounding to doubles *)

Section Doubles.
Local Open Scope Q_scope.

Lemma pow2_pos (k : Z) : 0 < 2 ^ k.
Proof. apply Qpower_0_lt. reflexivity. Qed.

Lemma pow2_plus (a b : Z) : 2 ^ (a + b) == 2 ^ a * 2 ^ b.
Proof. apply Qpower_plus. discriminate. Qed.

Lemma pow2_le (a b : Z) : (a <= b)%Z -> 2 ^ a <= 2 ^ b.
Proof. intros H. apply Qpower_le_compat_l; [exact H | discriminate]. Qed.

Lemma pow2_cancel (k : Z) : 2 ^ (- k) * 2 ^ k == 1.
Proof. rewrite <- pow2_plus. now replace (- k + k)%Z with 0%Z by lia. Qed.

Lemma pow2_succ (k : Z) : 2 ^ (k + 1) == 2 * 2 ^ k.
Proof. rewrite pow2_plus. change (2 ^ 1) with 2. ring. Qed.

Lemma pow2_Z (n : Z) : (0 <= n)%Z -> inject_Z (2 ^ n) == 2 ^ n.
Proof. intros H. now rewrite Zpower_Qpower. Qed.

Lemma floor_bounds (y : Q) : 0 <= y - inject_Z (Qfloor y) < 1.
Proof.
  pose proof (Qfloor_le y). pose proof (Qlt_floor y) as H1.
  rewrite inject_Z_plus in H1. change (inject_Z 1) with 1 in H1. lra.
Qed.

Lemma roundEven_cases (y : Q) :
  (JS.roundEven y = Qfloor y /\ y - inject_Z (Qfloor y) <= 1 # 2)
  \/ (JS.roundEven y = (Qfloor y + 1)%Z /\ 1 # 2 <= y - inject_Z (Qfloor y)).
Proof.
  unfold JS.roundEven.
  destruct (Qcompare_spec (y - inject_Z (Qfloor y)) (1 # 2)) as [E | E | E].
  - destruct (Z.even (Qfloor y)); [left | right]; split;
      try reflexivity; lra.
  - left. split; [reflexivity | lra].
  - right. split; [reflexivity | lra].
Qed.

Lemma roundEven_error (y : Q) :
  - (1 # 2) <= inject_Z (JS.roundEven y) - y <= 1 # 2.
Proof.
  pose proof (floor_bounds y) as Hb.
  destruct (roundEven_cases y) as [[-> H] | [-> H]].
  - lra.
  - rewrite inject_Z_plus. change (inject_Z 1) with 1. lra.
Qed.

Lemma roundEven_mono (y1 y2 : Q) : y1 <= y2 -> (JS.roundEven y1 <= JS.roundEven y2)%Z.
Proof.
  intros Hle.
  pose proof (Qfloor_resp_le _ _ Hle) as Hf.
  destruct (Z.eq_dec (Qfloor y1) (Qfloor y2)) as [Heq | Hne].
  - unfold JS.roundEven. rewrite <- Heq.
    assert (Hfrac : y1 - inject_Z (Qfloor y1) <= y2 - inject_Z (Qfloor y1)) by lra.
    destruct (Qcompare_spec (y1 - inject_Z (Qfloor y1)) (1 # 2)) as [E1 | E1 | E1];
      destruct (Qcompare_spec (y2 - inject_Z (Qfloor y1)) (1 # 2)) as [E2 | E2 | E2];
      destruct (Z.even (Qfloor y1)); try lia; exfalso; lra.
  - destruct (roundEven_cases y1) as [[-> _] | [-> _]];
      destruct (roundEven_cases y2) as [[-> _] | [-> _]]; lia.
Qed.

Lemma roundEven_Z (n : Z) : JS.roundEven (inject_Z n) = n.
Proof.
  unfold JS.roundEven. rewrite Qfloor_Z.
  assert (E : ((inject_Z n - inject_Z n) ?= (1 # 2)) = Lt).
  { rewrite <- Qlt_alt. lra. }
  now rewrite E.
Qed.

Lemma roundEven_ge (n : Z) (y : Q) : inject_Z n <= y -> (n <= JS.roundEven y)%Z.
Proof. intros H. rewrite <- (roundEven_Z n). now apply roundEven_mono. Qed.

Lemma roundEven_le (n : Z) (y : Q) : y <= inject_Z n -> (JS.roundEven y <= n)%Z.
Proof. intros H. rewrite <- (roundEven_Z n). now apply roundEven_mono. Qed.

Lemma ilog2_spec (x : Q) : 0 < x -> 2 ^ JS.ilog2 x <= x < 2 ^ (JS.ilog2 x + 1).
Proof.
  intros Hx. unfold JS.ilog2.
  destruct x as [n d]. cbn [Qnum Qden].
  assert (Hn : (0 < n)%Z).
  { unfold Qlt in Hx. cbn in Hx. lia. }
  pose proof (Z.log2_spec n Hn) as [Hn1 Hn2].
  pose proof (Z.log2_spec (Zpos d) ltac:(lia)) as [Hd1 Hd2].
  pose proof (Z.log2_nonneg n) as Hln.
  pose proof (Z.log2_nonneg (Zpos d)) as Hld.
  set (ln := Z.log2 n) in *. set (ld := Z.log2 (Zpos d)) in *.
  assert (Ex : (n # d) * inject_Z (Zpos d) == inject_Z n).
  { unfold Qeq, Qmult, inject_Z. cbn. lia. }
  assert (Qn1 : 2 ^ ln <= inject_Z n).
  { rewrite <- pow2_Z by lia. rewrite <- Zle_Qle. exact Hn1. }
  assert (Qn2 : inject_Z n < 2 ^ (ln + 1)).
  { rewrite <- pow2_Z by lia. rewrite <- Zlt_Qlt.
    now replace (ln + 1)%Z with (Z.succ ln) by lia. }
  assert (Qd1 : 2 ^ ld <= inject_Z (Zpos d)).
  { rewrite <- pow2_Z by lia. rewrite <- Zle_Qle. exact Hd1. }
  assert (Qd2 : inject_Z (Zpos d) < 2 ^ (ld + 1)).
  { rewrite <- pow2_Z by lia. rewrite <- Zlt_Qlt.
    now replace (ld + 1)%Z with (Z.succ ld) by lia. }
    assert (Hup : n # d < 2 ^ (ln - ld + 1)).
  { apply Qmult_lt_r with (z := 2 ^ ld); [apply pow2_pos |].
    rewrite <- pow2_plus. replace (ln - ld + 1 + ld)%Z with (ln + 1)%Z by lia.
    eapply Qle_lt_trans; [| exact Qn2]. rewrite <- Ex.
    apply Qmult_le_l; [exact Hx | exact Qd1]. }
  assert (Hlo : 2 ^ (ln - ld - 1) < n # d).
  { apply Qmult_lt_r with (z := 2 ^ (ld + 1)); [apply pow2_pos |].
    rewrite <- pow2_plus. replace (ln - ld - 1 + (ld + 1))%Z with ln by lia.
    eapply Qle_lt_trans; [exact Qn1 |]. rewrite <- Ex.
    apply Qmult_lt_l; [exact Hx | exact Qd2]. }
  destruct (JS.lt (n # d) (2 ^ (ln - ld))) eqn:E.
  - apply lt_true_iff in E.
    replace (ln - ld - 1 + 1)%Z with (ln - ld)%Z by lia.
    split; [apply Qlt_le_weak; exact Hlo | exact E].
  - apply lt_false_iff in E. split; [exact E | exact Hup].
Qed.

Lemma ilog2_mono (x y : Q) : 0 < x -> x <= y -> (JS.ilog2 x <= JS.ilog2 y)%Z.
Proof.
  intros Hx Hxy.
  destruct (ilog2_spec x Hx) as [Hx1 _].
  destruct (ilog2_spec y ltac:(lra)) as [_ Hy2].
  assert (H : 2 ^ JS.ilog2 x < 2 ^ (JS.ilog2 y + 1)) by lra.
  apply Qpower_lt_compat_l_inv in H; [lia | reflexivity].
Qed.

Lemma double_zero (x : Q) : x == 0 -> JS.double x = 0.
Proof. intros H. unfold JS.double. apply Qeq_bool_iff in H. now rewrite H. Qed.

Lemma double_nonzero (x : Q) :
  ~ x == 0 ->
  JS.double x = inject_Z (JS.roundEven (x * 2 ^ (- JS.ulpExp x))) * 2 ^ JS.ulpExp x.
Proof.
  intros H. unfold JS.double. destruct (Qeq_bool x 0) eqn:E; [| reflexivity].
  apply Qeq_bool_iff in E. contradiction.
Qed.

Lemma scaled_back (x : Q) (k : Z) : x * 2 ^ (- k) * 2 ^ k == x.
Proof. rewrite <- Qmult_assoc, pow2_cancel. ring. Qed.

Lemma mult_pow2_le (a b : Q) (k : Z) : a <= b -> a * 2 ^ k <= b * 2 ^ k.
Proof. intros H. apply Qmult_le_compat_r; [exact H |]. apply Qlt_le_weak, pow2_pos. Qed.

Lemma double_nonpos (x : Q) : x <= 0 -> JS.double x <= 0.
Proof.
  intros Hx. destruct (Qeq_dec x 0) as [E | E].
  - rewrite (double_zero x E). lra.
  - rewrite (double_nonzero x E). set (k := JS.ulpExp x).
    assert (Hy : x * 2 ^ (- k) <= inject_Z 0).
    { change (inject_Z 0) with 0.
      pose proof (mult_pow2_le x 0 (- k) Hx) as H. lra. }
    apply roundEven_le in Hy. rewrite Zle_Qle in Hy.
    pose proof (mult_pow2_le _ _ k Hy) as H.
    change (inject_Z 0) with 0 in H. lra.
Qed.

Lemma double_nonneg (x : Q) : 0 <= x -> 0 <= JS.double x.
Proof.
  intros Hx. destruct (Qeq_dec x 0) as [E | E].
  - rewrite (double_zero x E). lra.
  - rewrite (double_nonzero x E). set (k := JS.ulpExp x).
    assert (Hy : inject_Z 0 <= x * 2 ^ (- k)).
    { change (inject_Z 0) with 0.
      pose proof (mult_pow2_le 0 x (- k) Hx) as H. lra. }
    apply roundEven_ge in Hy. rewrite Zle_Qle in Hy.
    pose proof (mult_pow2_le _ _ k Hy) as H.
    change (inject_Z 0) with 0 in H. lra.
Qed.

(** Error of one rounding. *)
Lemma double_error_ulp (x : Q) :
  ~ x == 0 -> Qabs (JS.double x - x) <= 2 ^ (JS.ulpExp x - 1).
Proof.
  intros E. rewrite (double_nonzero x E). set (k := JS.ulpExp x).
  pose proof (roundEven_error (x * 2 ^ (- k))) as [Hlo Hhi].
  pose proof (scaled_back x k) as Hx.
  set (y := x * 2 ^ (- k)) in *. set (r := inject_Z (JS.roundEven y)) in *.
  assert (Hk : 2 ^ (k - 1) * 2 == 2 ^ k).
  { replace k with (k - 1 + 1)%Z at 2 by lia. rewrite pow2_succ. ring. }
  pose proof (pow2_pos (k - 1)) as Hp.
  set (h := 2 ^ (k - 1)) in *. set (p := 2 ^ k) in *.
  assert (H1 : 0 <= (r - y + (1 # 2)) * p).
  { apply Qmult_le_0_compat; lra. }
  assert (H2 : 0 <= ((1 # 2) - (r - y)) * p).
  { apply Qmult_le_0_compat; lra. }
  apply Qabs_Qle_condition. split; lra.
Qed.

Lemma Qabs_pos_lt (x : Q) : ~ x == 0 -> 0 < Qabs x.
Proof.
  intros E. destruct (Qlt_le_dec x 0) as [H | H].
  - rewrite Qabs_neg by lra. lra.
  - rewrite Qabs_pos by lra.
    destruct (Qeq_dec x 0); [contradiction | lra].
Qed.

Lemma double_error (x : Q) :
  Qabs (JS.double x - x) <= Qabs x * 2 ^ (-53) + 2 ^ (-1075).
Proof.
  pose proof (pow2_pos (-53)) as H53. pose proof (pow2_pos (-1075)) as H1075.
  destruct (Qeq_dec x 0) as [E | E].
  - rewrite (double_zero x E).
    assert (Hx : Qabs (0 - x) == 0) by (rewrite E; reflexivity).
    rewrite Hx. pose proof (Qabs_nonneg x).
    assert (0 <= Qabs x * 2 ^ (-53)) by (apply Qmult_le_0_compat; lra). lra.
  - eapply Qle_trans; [apply (double_error_ulp x E) |].
    pose proof (Qabs_pos_lt x E) as Hpos.
    destruct (ilog2_spec (Qabs x) Hpos) as [Hlo _].
    unfold JS.ulpExp. set (e := JS.ilog2 (Qabs x)) in *.
    destruct (Z.max_spec e (-1022)) as [[Hc ->] | [Hc ->]].
    + change (2 ^ (-1022 - 52 - 1)) with (2 ^ (-1075)).
      assert (0 <= Qabs x * 2 ^ (-53)) by (apply Qmult_le_0_compat; lra). lra.
    + replace (e - 52 - 1)%Z with (e + -53)%Z by lia. rewrite pow2_plus.
      pose proof (mult_pow2_le _ _ (-53) Hlo). lra.
Qed.

(** Monotonicity. *)

Lemma pow2_53_Z : inject_Z (2 ^ 53) == 2 ^ 53.
Proof. apply pow2_Z. lia. Qed.

Lemma pow2_52_Z : inject_Z (2 ^ 52) == 2 ^ 52.
Proof. apply pow2_Z. lia. Qed.

Lemma pow2_split (a b c : Z) : a = (b + c)%Z -> 2 ^ a == 2 ^ b * 2 ^ c.
Proof. intros ->. apply pow2_plus. Qed.

Lemma double_pos_upper (x : Q) :
  0 < x -> JS.double x <= 2 ^ (Z.max (JS.ilog2 (Qabs x)) (-1022) + 1).
Proof.
  intros Hx. rewrite double_nonzero by lra.
  assert (Ha : Qabs x == x) by (apply Qabs_pos; lra).
  destruct (ilog2_spec (Qabs x) ltac:(lra)) as [_ Hhi].
  unfold JS.ulpExp. set (e := JS.ilog2 (Qabs x)) in *.
  set (E := Z.max e (-1022)).
  assert (HE : (e <= E)%Z) by (unfold E; lia).
  assert (Hx2 : x <= 2 ^ (E + 1)).
  { pose proof (pow2_le (e + 1) (E + 1) ltac:(lia)). lra. }
  pose proof (pow2_split 53 (E + 1) (- (E - 52)) ltac:(lia)) as P1.
  pose proof (pow2_split (E + 1) 53 (E - 52) ltac:(lia)) as P2.
  assert (Hy : x * 2 ^ (- (E - 52)) <= inject_Z (2 ^ 53)).
  { rewrite pow2_53_Z. pose proof (mult_pow2_le _ _ (- (E - 52)) Hx2). lra. }
  apply roundEven_le in Hy. rewrite Zle_Qle in Hy.
  pose proof (mult_pow2_le _ _ (E - 52) Hy) as H.
  rewrite pow2_53_Z in H. lra.
Qed.

Lemma double_pos_lower (x : Q) :
  0 < x -> (-1022 <= JS.ilog2 (Qabs x))%Z -> 2 ^ JS.ilog2 (Qabs x) <= JS.double x.
Proof.
  intros Hx He. rewrite double_nonzero by lra.
  assert (Ha : Qabs x == x) by (apply Qabs_pos; lra).
  destruct (ilog2_spec (Qabs x) ltac:(lra)) as [Hlo _].
  unfold JS.ulpExp. set (e := JS.ilog2 (Qabs x)) in *.
  replace (Z.max e (-1022)) with e by lia.
  pose proof (pow2_split 52 e (- (e - 52)) ltac:(lia)) as P1.
  pose proof (pow2_split e 52 (e - 52) ltac:(lia)) as P2.
  assert (Hx2 : 2 ^ e <= x) by lra.
  assert (Hy : inject_Z (2 ^ 52) <= x * 2 ^ (- (e - 52))).
  { rewrite pow2_52_Z. pose proof (mult_pow2_le _ _ (- (e - 52)) Hx2). lra. }
  apply roundEven_ge in Hy. rewrite Zle_Qle in Hy.
  pose proof (mult_pow2_le _ _ (e - 52) Hy) as H.
  rewrite pow2_52_Z in H. lra.
Qed.

Lemma double_neg_lower (x : Q) :
  x < 0 -> - 2 ^ (Z.max (JS.ilog2 (Qabs x)) (-1022) + 1) <= JS.double x.
Proof.
  intros Hx. rewrite double_nonzero by lra.
  assert (Ha : Qabs x == - x) by (apply Qabs_neg; lra).
  destruct (ilog2_spec (Qabs x) ltac:(lra)) as [_ Hhi].
  unfold JS.ulpExp. set (e := JS.ilog2 (Qabs x)) in *.
  set (E := Z.max e (-1022)).
  assert (HE : (e <= E)%Z) by (unfold E; lia).
  assert (Hx2 : - 2 ^ (E + 1) <= x).
  { pose proof (pow2_le (e + 1) (E + 1) ltac:(lia)). lra. }
  pose proof (pow2_split 53 (E + 1) (- (E - 52)) ltac:(lia)) as P1.
  pose proof (pow2_split (E + 1) 53 (E - 52) ltac:(lia)) as P2.
  assert (Hy : inject_Z (- 2 ^ 53) <= x * 2 ^ (- (E - 52))).
  { rewrite inject_Z_opp, pow2_53_Z.
    pose proof (mult_pow2_le _ _ (- (E - 52)) Hx2). lra. }
  apply roundEven_ge in Hy. rewrite Zle_Qle in Hy.
  pose proof (mult_pow2_le _ _ (E - 52) Hy) as H.
  rewrite inject_Z_opp, pow2_53_Z in H. lra.
Qed.

Lemma double_neg_upper (x : Q) :
  x < 0 -> (-1022 <= JS.ilog2 (Qabs x))%Z -> JS.double x <= - 2 ^ JS.ilog2 (Qabs x).
Proof.
  intros Hx He. rewrite double_nonzero by lra.
  assert (Ha : Qabs x == - x) by (apply Qabs_neg; lra).
  destruct (ilog2_spec (Qabs x) ltac:(lra)) as [Hlo _].
  unfold JS.ulpExp. set (e := JS.ilog2 (Qabs x)) in *.
  replace (Z.max e (-1022)) with e by lia.
  pose proof (pow2_split 52 e (- (e - 52)) ltac:(lia)) as P1.
  pose proof (pow2_split e 52 (e - 52) ltac:(lia)) as P2.
  assert (Hx2 : x <= - 2 ^ e) by lra.
  assert (Hy : x * 2 ^ (- (e - 52)) <= inject_Z (- 2 ^ 52)).
  { rewrite inject_Z_opp, pow2_52_Z.
    pose proof (mult_pow2_le _ _ (- (e - 52)) Hx2). lra. }
  apply roundEven_le in Hy. rewrite Zle_Qle in Hy.
  pose proof (mult_pow2_le _ _ (e - 52) Hy) as H.
  rewrite inject_Z_opp, pow2_52_Z in H. lra.
Qed.

Lemma double_same_ulp (x y : Q) :
  ~ x == 0 -> ~ y == 0 -> x <= y -> JS.ulpExp x = JS.ulpExp y -> JS.double x <= JS.double y.
Proof.
  intros Ex Ey Hxy Hk. rewrite (double_nonzero x Ex), (double_nonzero y Ey), Hk.
  apply mult_pow2_le. rewrite <- Zle_Qle.
  apply roundEven_mono. now apply mult_pow2_le.
Qed.

Lemma double_mono (x y : Q) : x <= y -> JS.double x <= JS.double y.
Proof.
  intros Hxy.
  destruct (Qlt_le_dec 0 x) as [Hx | Hx].
  - (* 0 < x <= y *)
    assert (Hy : 0 < y) by lra.
    assert (Hax : Qabs x == x) by (apply Qabs_pos; lra).
    assert (Hay : Qabs y == y) by (apply Qabs_pos; lra).
    pose proof (ilog2_mono (Qabs x) (Qabs y) ltac:(lra) ltac:(lra)) as He.
    destruct (Z.eq_dec (JS.ulpExp x) (JS.ulpExp y)) as [Hk | Hk].
    + apply double_same_ulp; [lra | lra | exact Hxy | exact Hk].
    + unfold JS.ulpExp in Hk.
      assert (Hlt : (Z.max (JS.ilog2 (Qabs x)) (-1022) < JS.ilog2 (Qabs y))%Z) by lia.
      eapply Qle_trans; [apply (double_pos_upper x Hx) |].
      eapply Qle_trans; [| apply (double_pos_lower y Hy); lia].
      apply pow2_le. lia.
  - destruct (Qlt_le_dec y 0) as [Hy | Hy].
    + (* x <= y < 0 *)
      assert (Hx' : x < 0) by lra.
      assert (Hax : Qabs x == - x) by (apply Qabs_neg; lra).
      assert (Hay : Qabs y == - y) by (apply Qabs_neg; lra).
      pose proof (ilog2_mono (Qabs y) (Qabs x) ltac:(lra) ltac:(lra)) as He.
      destruct (Z.eq_dec (JS.ulpExp x) (JS.ulpExp y)) as [Hk | Hk].
      * apply double_same_ulp; [lra | lra | exact Hxy | exact Hk].
      * unfold JS.ulpExp in Hk.
        assert (Hlt : (Z.max (JS.ilog2 (Qabs y)) (-1022) < JS.ilog2 (Qabs x))%Z) by lia.
        eapply Qle_trans; [apply (double_neg_upper x Hx'); lia |].
        eapply Qle_trans; [| apply (double_neg_lower y Hy)].
        apply Qopp_le_compat. apply pow2_le. lia.
    + eapply Qle_trans; [apply double_nonpos; exact Hx | apply double_nonneg; exact Hy].
Qed.

Lemma double_near (x B : Q) :
  Qabs x <= B -> Qabs (JS.double x - x) <= B * 2 ^ (-53) + 2 ^ (-1075).
Proof.
  intros HB. eapply Qle_trans; [apply double_error |].
  pose proof (mult_pow2_le _ _ (-53) HB). lra.
Qed.

Lemma const_le (a b : Q) : Qle_bool a b = true -> a <= b.
Proof. apply Qle_bool_iff. Qed.

Lemma tenth_bounds : (9999 # 100000) <= JS.tenth <= (10001 # 100000).
Proof. split; apply const_le; vm_compute; reflexivity. Qed.

Lemma time_near (a : Z) :
  (0 <= a <= 2 ^ 40)%Z ->
  Qabs (JS.double (inject_Z a / 1000) - inject_Z a / 1000) <= 1 # 1000000.
Proof.
  intros Ha.
  assert (H0 : 0 <= inject_Z a) by (change 0 with (inject_Z 0); rewrite <- Zle_Qle; lia).
  assert (H1 : inject_Z a <= inject_Z (2 ^ 40)) by (rewrite <- Zle_Qle; lia).
  assert (Hq : inject_Z a / 1000 == inject_Z a * (1 # 1000)) by (field).
  assert (Hb : Qabs (inject_Z a / 1000) <= inject_Z (2 ^ 40) * (1 # 1000)).
  { rewrite Qabs_pos. all: lra. }
  eapply Qle_trans; [apply (double_near _ _ Hb) |].
  apply const_le. vm_compute. reflexivity.
Qed.

Lemma gap_near (d : Q) :
  Qabs d <= 2 ->
  Qabs (JS.double d - d) <= 1 # 1000000.
Proof.
  intros Hd. eapply Qle_trans; [apply (double_near _ _ Hd) |].
  apply const_le. vm_compute. reflexivity.
Qed.

Lemma whole_ms_gap (a b : Z) :
  (0 <= a <= 2 ^ 40)%Z -> (0 <= b <= 2 ^ 40)%Z ->
  let s := inject_Z a / 1000 in
  let e := inject_Z b / 1000 in
  ((a - b <= 99)%Z -> JS.lt (JS.sub (JS.double s) (JS.double e)) JS.tenth = true)
  /\ ((101 <= a - b)%Z -> JS.lt (JS.sub (JS.double s) (JS.double e)) JS.tenth = false).
Proof.
  intros Ha Hb s e.
  pose proof (time_near a Ha) as Hs. pose proof (time_near b Hb) as He.
  fold s in Hs. fold e in He.
  apply Qabs_Qle_condition in Hs. apply Qabs_Qle_condition in He.
  pose proof tenth_bounds as [Ht1 Ht2].
  assert (Hse : s - e == inject_Z (a - b) * (1 # 1000)).
  { subst s e. unfold Zminus. rewrite inject_Z_plus, inject_Z_opp. field. }
  unfold JS.sub. set (d := JS.double s - JS.double e).
  assert (Hd0 : d == JS.double s - JS.double e) by reflexivity. clearbody d.
  split; intros Hab.
  - apply lt_true_iff.
    assert (Hab' : inject_Z (a - b) <= 99).
    { change 99 with (inject_Z 99). rewrite <- Zle_Qle. exact Hab. }
    destruct (Qlt_le_dec 0 d) as [Hd | Hd].
    + assert (Hd2 : Qabs d <= 2) by (rewrite Qabs_pos; lra).
      pose proof (gap_near d Hd2) as Hg. apply Qabs_Qle_condition in Hg. lra.
    + pose proof (double_nonpos d Hd). lra.
  - apply lt_false_iff.
    assert (Hab' : 101 <= inject_Z (a - b)).
    { change 101 with (inject_Z 101). rewrite <- Zle_Qle. exact Hab. }
    destruct (Qlt_le_dec d 2) as [Hd | Hd].
    + assert (Hd2 : Qabs d <= 2) by (rewrite Qabs_pos; lra).
      pose proof (gap_near d Hd2) as Hg. apply Qabs_Qle_condition in Hg. lra.
    + pose proof (double_mono 2 d Hd) as Hm.
      assert (H2 : JS.double 2 == 2) by (vm_compute; reflexivity). lra.
Qed.

End Doubles.

(** ** Timing normalisation *)

Section Timing.
Local Open Scope Q_scope.

(** The state of the loop after the turns [0 .. k-1]. *)
Lemma fixTiming_prefix (subtitles : list Cue.t) (k : nat) :
  forall j,
    fold_left fixTimingAt (seq 0 k) subtitles !! j
    = if (j <? k)%nat then adjusted subtitles j else subtitles !! j.
Proof.
  induction k as [| k IH]; intros j.
  - reflexivity.
  - rewrite seq_S, fold_left_app. cbn [fold_left Nat.add].
    set (st := fold_left fixTimingAt (seq 0 k) subtitles) in *.
    assert (Hk : st !! k = subtitles !! k).
    { rewrite IH. now rewrite Nat.ltb_irrefl. }
    assert (Hk1 : st !! (k + 1)%nat = subtitles !! (k + 1)%nat).
    { rewrite IH. destruct (Nat.ltb_spec (k + 1) k); [lia | reflexivity]. }
    unfold fixTimingAt. rewrite Hk, Hk1.
    destruct (Nat.eq_dec j k) as [-> | Hne].
    + destruct (Nat.ltb_spec k (S k)); [| lia].
      unfold adjusted.
      destruct (subtitles !! k) as [c |] eqn:Ec; [| now rewrite Hk].
      destruct (subtitles !! (k + 1)%nat) as [n |]; [| now rewrite Hk].
      destruct (smallGap _ _); [| now rewrite Hk].
      apply list_lookup_insert_eq. eapply lookup_lt_Some. exact Hk.
    + assert (Hj : (j <? S k)%nat = (j <? k)%nat).
      { destruct (Nat.ltb_spec j (S k)), (Nat.ltb_spec j k); lia || reflexivity. }
      rewrite Hj, <- IH.
      destruct (subtitles !! k) as [c |]; [| reflexivity].
      destruct (subtitles !! (k + 1)%nat) as [n |]; [| reflexivity].
      destruct (smallGap _ _); [| reflexivity].
      apply list_lookup_insert_ne. congruence.
Qed.

Lemma fixTiming_lookup (subtitles : list Cue.t) (j : nat) :
  fixTiming subtitles !! j = adjusted subtitles j.
Proof.
  unfold fixTiming. rewrite fixTiming_prefix.
  destruct (Nat.ltb_spec j (length subtitles - 1)) as [Hlt | Hge];
    [reflexivity |].
  unfold adjusted.
  destruct (subtitles !! j) as [c |]; [| reflexivity].
  rewrite (proj2 (lookup_ge_None subtitles (j + 1))); [reflexivity | lia].
Qed.

Lemma adjusted_start (subtitles : list Cue.t) (j : nat) (c' : Cue.t) :
  adjusted subtitles j = Some c' ->
  exists c, subtitles !! j = Some c /\ Cue.start c' = Cue.start c
            /\ Cue.text c' = Cue.text c /\ Cue.index c' = Cue.index c.
Proof.
  unfold adjusted. destruct (subtitles !! j) as [c |]; [| discriminate].
  destruct (subtitles !! (j + 1)%nat) as [n |].
  - destruct (smallGap _ _); intros [= <-]; exists c; repeat split.
  - intros [= <-]. exists c. repeat split.
Qed.

(** Two overlapping cues are always found close: the rounded difference
    of the doubles is not positive. *)
Lemma smallGap_overlap (c n : Cue.t) :
  Cue.start n < Cue.end_ c -> smallGap c n = true.
Proof.
  intros Hover. unfold smallGap, JS.sub. apply lt_true_iff.
  pose proof (double_mono _ _ (Qlt_le_weak _ _ Hover)) as Hm.
  pose proof (double_nonpos
                (JS.double (Cue.start n) - JS.double (Cue.end_ c))
                ltac:(lra)) as Hd.
  pose proof tenth_bounds as [Ht _]. lra.
Qed.

(** The test on two times in whole milliseconds: up to 99 milliseconds
    apart the gap is found small, from 101 on it is not. *)
Lemma smallGap_whole_ms (current next : Cue.t) (a b : Z) :
  (0 <= a <= 2 ^ 40)%Z -> (0 <= b <= 2 ^ 40)%Z ->
  Cue.start next = inject_Z a / 1000 ->
  Cue.end_ current = inject_Z b / 1000 ->
  ((a - b <= 99)%Z -> smallGap current next = true)
  /\ ((101 <= a - b)%Z -> smallGap current next = false).
Proof.
  intros Ha Hb Hs He. unfold smallGap. rewrite Hs, He.
  apply (whole_ms_gap a b Ha Hb).
Qed.

(** C2. The pass decides every cue from the cues as parsed, in order:
    the end of a cue becomes the start of its successor exactly when the
    program finds the gap [next.start - current.end] below [0.1], and
    nothing else changes.  Afterwards, for every adjacent pair, the gap as
    the program computes it is at least [0.1], or the first cue ends where
    the second starts.  For times in whole milliseconds a gap of up to 99
    milliseconds is closed and one of 101 or more is kept: an entry less
    than 100 milliseconds before its successor ends where the successor
    starts, and afterwards the gap in seconds is at least 0.1 or the cues
    touch.  In the
    end-to-end example the first cue ends at 1.05; of two pairs exactly 100
    milliseconds apart the one at 0.2 is closed and the one at 1.0 is
    kept, as the doubles decide. *)
Theorem timing_normalized :
  (forall subtitles i, fixTiming subtitles !! i = adjusted subtitles i)
  /\ (forall subtitles i current next,
        fixTiming subtitles !! i = Some current ->
        fixTiming subtitles !! (i + 1)%nat = Some next ->
        JS.tenth <= JS.sub (JS.double (Cue.start next))
                      (JS.double (Cue.end_ current))
        \/ Cue.end_ current = Cue.start next)
  /\ (forall current next a b,
        (0 <= a <= 2 ^ 40)%Z -> (0 <= b <= 2 ^ 40)%Z ->
        Cue.start next = inject_Z a / 1000 ->
        Cue.end_ current = inject_Z b / 1000 ->
        ((a - b <= 99)%Z -> smallGap current next = true)
        /\ ((101 <= a - b)%Z -> smallGap current next = false))
  /\ (forall parsed i entry successor,
        Forall wholeMs parsed ->
        parsed !! i = Some entry ->
        parsed !! (i + 1)%nat = Some successor ->
        p_start successor - p_end entry < 100 ->
        exists current,
          parseSubtitles parsed !! i = Some current
          /\ Cue.end_ current = p_start successor / 1000)
  /\ (forall parsed i current next,
        Forall wholeMs parsed ->
        parseSubtitles parsed !! i = Some current ->
        parseSubtitles parsed !! (i + 1)%nat = Some next ->
        1 # 10 <= Cue.start next - Cue.end_ current
        \/ Cue.end_ current = Cue.start next)
  /\ (exists first, parseSubtitles exampleParsed !! 0%nat = Some first
                    /\ Cue.end_ first == (105 # 100))
  /\ (exists first, parseSubtitles gapAtPointTwo !! 0%nat = Some first
                    /\ Cue.end_ first == (3 # 10))
  /\ (exists first, parseSubtitles gapAtOne !! 0%nat = Some first
                    /\ Cue.end_ first == 1).
Proof.
  split; [exact fixTiming_lookup |].
  split; [| split; [exact smallGap_whole_ms | split; [| split]]].
  - intros subtitles i current next Hc Hn.
    rewrite fixTiming_lookup in Hc, Hn.
    apply adjusted_start in Hn. destruct Hn as (n & Hn & Hs & _).
    unfold adjusted in Hc. rewrite Hn in Hc.
    destruct (subtitles !! i) as [c |]; [| discriminate].
    rewrite Hs.
    destruct (smallGap c n) eqn:Hgap; injection Hc as <-.
    + right. reflexivity.
    + left. unfold smallGap in Hgap. now apply lt_false_iff in Hgap.
  - intros parsed i entry successor Hall He Hn Hgap.
    unfold parseSubtitles. rewrite fixTiming_lookup. unfold adjusted.
    rewrite !list_lookup_imap, He, Hn. cbn [fmap option_fmap option_map].
    rewrite Forall_lookup in Hall.
    destruct (Hall _ _ He) as (a0 & b0 & Ha0 & Hb0 & Es0 & Ee0).
    destruct (Hall _ _ Hn) as (a1 & b1 & Ha1 & Hb1 & Es1 & Ee1).
    destruct (smallGap_whole_ms (toInternal i entry)
                (toInternal (i + 1) successor) a1 b0 Ha1 Hb0) as [Hsmall _].
    { cbn. now rewrite Es1. }
    { cbn. now rewrite Ee0. }
    rewrite Hsmall.
    + eexists. split; reflexivity.
    + rewrite Es1, Ee0 in Hgap.
      assert (H : inject_Z (a1 - b0) < inject_Z 100).
      { unfold Zminus. rewrite inject_Z_plus, inject_Z_opp. exact Hgap. }
      rewrite <- Zlt_Qlt in H. lia.
  - intros parsed i current next Hall Hc Hn. unfold parseSubtitles in Hc, Hn.
    rewrite fixTiming_lookup in Hc, Hn.
    apply adjusted_start in Hn. destruct Hn as (n & Hn & Hs & _).
    unfold adjusted in Hc. rewrite Hn in Hc.
    destruct (imap toInternal parsed !! i) as [c |] eqn:Hci; [| discriminate].
    apply list_lookup_imap_Some in Hci. destruct Hci as (p0 & Hp0 & ->).
    apply list_lookup_imap_Some in Hn. destruct Hn as (p1 & Hp1 & ->).
    rewrite Forall_lookup in Hall.
    destruct (Hall _ _ Hp0) as (a0 & b0 & Ha0 & Hb0 & Es0 & Ee0).
    destruct (Hall _ _ Hp1) as (a1 & b1 & Ha1 & Hb1 & Es1 & Ee1).
    rewrite Hs.
    destruct (smallGap (toInternal i p0) (toInternal (i + 1) p1)) eqn:Hgap;
      injection Hc as <-.
    + right. reflexivity.
    + left. cbn [toInternal Cue.start Cue.end_]. rewrite Es1, Ee0.
      destruct (smallGap_whole_ms (toInternal i p0) (toInternal (i + 1) p1)
                  a1 b0 Ha1 Hb0) as [Hsmall _].
      { cbn. now rewrite Es1. }
      { cbn. now rewrite Ee0. }
      assert (Hab : (100 <= a1 - b0)%Z).
      { destruct (Z_le_gt_dec (a1 - b0) 99) as [Hle | Hgt]; [| lia].
        rewrite (Hsmall Hle) in Hgap. discriminate. }
      assert (Hq : inject_Z a1 / 1000 - inject_Z b0 / 1000
                   == inject_Z (a1 - b0) * (1 # 1000)).
      { unfold Zminus. rewrite inject_Z_plus, inject_Z_opp. field. }
      assert (Hab' : 100 <= inject_Z (a1 - b0)).
      { change 100 with (inject_Z 100). rewrite <- Zle_Qle. exact Hab. }
      lra.
  - split; [| split]; eexists; (split; [vm_compute; reflexivity |]);
      vm_compute; reflexivity.
Qed.

Lemma timing_normalized_witness :
  1 # 10 <= 1050 / 1000 - 1050 / 1000
  \/ (1050 / 1000 = 1050 / 1000 :> Q).
Proof.
  apply (proj1 (proj2 (proj2 (proj2 (proj2 timing_normalized))))
           exampleParsed 0%nat
           (Cue.mk 1 (0 / 1000) (1050 / 1000) (Text.lit "Hi"))
           (Cue.mk 2 (1050 / 1000) (2000 / 1000) (Text.lit "Bye"))).
  - repeat constructor.
    + exists 0%Z, 1000%Z. repeat split; lia.
    + exists 1050%Z, 2000%Z. repeat split; lia.
  - vm_compute. reflexivity.
  - vm_compute. reflexivity.
Defined.

End Timing.

(** ** Script detection *)

Section ScriptDetection.

Lemma isCjkUnit_range (c : N) :
  isCjkUnit c = true
  <-> (0x3000 <= c <= 0x9fff)%N \/ (0xf900 <= c <= 0xfaff)%N.
Proof.
  unfold isCjkUnit, Text.inRange.
  rewrite orb_true_iff, !andb_true_iff, !N.leb_le. tauto.
Qed.

Lemma detectScript_cjk_iff (text : jsstring) :
  detectScript text = cjk <-> exists c, In c text /\ isCjkUnit c = true.
Proof.
  rewrite <- existsb_exists. unfold detectScript.
  destruct (existsb isCjkUnit text); [tauto |].
  destruct (existsb isArabicUnit text); [split; discriminate |].
  destruct (existsb isHebrewUnit text); split; discriminate.
Qed.

Lemma detectScript_arabic_iff (text : jsstring) :
  detectScript text = arabic
  <-> existsb isCjkUnit text = false /\ existsb isArabicUnit text = true.
Proof.
  unfold detectScript.
  destruct (existsb isCjkUnit text); [split; [discriminate | intros []; discriminate] |].
  destruct (existsb isArabicUnit text); [tauto |].
  destruct (existsb isHebrewUnit text); split; try discriminate; intros []; discriminate.
Qed.

Lemma detectScript_hebrew_iff (text : jsstring) :
  detectScript text = hebrew
  <-> existsb isCjkUnit text = false /\ existsb isArabicUnit text = false
      /\ existsb isHebrewUnit text = true.
Proof.
  unfold detectScript.
  destruct (existsb isCjkUnit text);
    [split; [discriminate | intros []; discriminate] |].
  destruct (existsb isArabicUnit text);
    [split; [discriminate | intros (_ & ? & _); discriminate] |].
  destruct (existsb isHebrewUnit text); [tauto |].
  split; [discriminate | intros (_ & _ & ?); discriminate].
Qed.

Lemma detectScript_latin_iff (text : jsstring) :
  detectScript text = latin
  <-> existsb isCjkUnit text = false /\ existsb isArabicUnit text = false
      /\ existsb isHebrewUnit text = false.
Proof.
  unfold detectScript.
  destruct (existsb isCjkUnit text);
    [split; [discriminate | intros []; discriminate] |].
  destruct (existsb isArabicUnit text);
    [split; [discriminate | intros (_ & ? & _); discriminate] |].
  destruct (existsb isHebrewUnit text); [| tauto].
  split; [discriminate | intros (_ & _ & ?); discriminate].
Qed.

(** C5. The script is found by presence tests on fixed code-point ranges,
    tried in the order CJK, Arabic, Hebrew, with Latin as the default and
    the first range present winning.  A text with at least one code unit
    in the CJK ranges is [cjk], whatever else it contains. *)
Theorem detectScript_priority :
  (forall text c, In c text -> isCjkUnit c = true -> detectScript text = cjk)
  /\ (forall c, isCjkUnit c = true
                <-> (0x3000 <= c <= 0x9fff)%N \/ (0xf900 <= c <= 0xfaff)%N)
  /\ (forall c, isArabicUnit c = true <-> (0x0600 <= c <= 0x06ff)%N)
  /\ (forall c, isHebrewUnit c = true <-> (0x0590 <= c <= 0x05ff)%N)
  /\ (forall text,
        detectScript text =
          if existsb isCjkUnit text then cjk
          else if existsb isArabicUnit text then arabic
          else if existsb isHebrewUnit text then hebrew
          else latin)
  /\ (forall before after,
        detectScript (before ++ [0x4e2d%N] ++ after) = cjk).
Proof.
  split; [| split; [| split; [| split; [| split]]]].
  - intros text c Hin Hc. apply detectScript_cjk_iff. now exists c.
  - exact isCjkUnit_range.
  - intros c. unfold isArabicUnit, Text.inRange.
    now rewrite andb_true_iff, !N.leb_le.
  - intros c. unfold isHebrewUnit, Text.inRange.
    now rewrite andb_true_iff, !N.leb_le.
  - reflexivity.
  - intros before after. apply detectScript_cjk_iff.
    exists 0x4e2d%N. split; [| reflexivity].
    apply in_or_app. right. now left.
Qed.

Lemma detectScript_priority_witness :
  detectScript (Text.lit "Hello " ++ [0x0645%N; 0x4e2d%N; 0x05d0%N]) = cjk.
Proof.
  apply (proj1 detectScript_priority _ 0x4e2d%N).
  - vm_compute. tauto.
  - reflexivity.
Defined.

End ScriptDetection.

(** ** Right-to-left marker *)

Section RtlMarker.

(** The events of a list of cues, two per cue: at [2 * idx + k] is the
    line [k] of the cue at [idx]. *)
Lemma concat_pairs_lookup {A B : Type} (f : nat -> A -> list B) (l : list A) :
  (forall i x, length (f i x) = 2%nat) ->
  forall idx k x, (k < 2)%nat -> l !! idx = Some x ->
    concat (imap f l) !! (2 * idx + k)%nat = f idx x !! k.
Proof.
  revert f. induction l as [| y l IH]; intros f Hlen idx k x Hk Hx.
  - discriminate.
  - cbn [imap concat]. destruct idx as [| idx].
    + injection Hx as ->. rewrite lookup_app_l; [reflexivity |].
      rewrite Hlen. lia.
    + rewrite lookup_app_r; rewrite Hlen; [| lia].
      replace (2 * S idx + k - 2)%nat with (2 * idx + k)%nat by lia.
      apply (IH (f ∘ S)); [intros; apply Hlen | exact Hk | exact Hx].
Qed.

Lemma currentRtlMarker_iff (script : Script) :
  currentRtlMarker script = rtlMarker <-> script = arabic \/ script = hebrew.
Proof.
  destruct script; cbn; split; intros H; try discriminate;
    try reflexivity; try tauto; destruct H; discriminate.
Qed.

(** C6. The text line of a cue carries the right-to-left marker exactly
    when the script detected on the text of that cue is Arabic or Hebrew;
    no other cue of the document and no option enters the decision.
    [isRtlScript] is true exactly for Arabic and Hebrew. *)
Theorem rtl_marker_iff_cue_script :
  (forall script, isRtlScript script = true <-> script = arabic \/ script = hebrew)
  /\ (forall subtitles probe measurement win32 options doc idx sub,
        createRoundedAss subtitles probe measurement win32 options = inr doc ->
        subtitles !! idx = Some sub ->
        exists bg tx,
          doc_events doc !! (2 * idx)%nat = Some (Background bg)
          /\ doc_events doc !! (2 * idx + 1)%nat = Some (Dialogue tx)
          /\ tx_text tx = Cue.text sub
          /\ (tx_rtlMarker tx = rtlMarker
              <-> detectScript (Cue.text sub) = arabic
                  \/ detectScript (Cue.text sub) = hebrew)
          /\ (tx_rtlMarker tx = []
              <-> ~ (detectScript (Cue.text sub) = arabic
                     \/ detectScript (Cue.text sub) = hebrew))).
Proof.
  split.
  - intros script. destruct script; cbn; split; intros H;
      try discriminate; try reflexivity; try tauto; destruct H; discriminate.
  - intros subtitles probe measurement win32 options doc idx sub Hdoc Hsub.
    destruct (createRoundedAss_inr _ _ _ _ _ _ Hdoc) as (_ & _ & ->).
    set (f := cueEvents _ _ _ _ _ _ _).
    assert (Hlen : forall i x, length (f i x) = 2%nat) by reflexivity.
    pose proof (concat_pairs_lookup f subtitles Hlen idx 0 sub
                  ltac:(lia) Hsub) as H0.
    pose proof (concat_pairs_lookup f subtitles Hlen idx 1 sub
                  ltac:(lia) Hsub) as H1.
    rewrite Nat.add_0_r in H0.
    subst f. cbn [cueEvents lookup list_lookup] in H0, H1.
    eexists. eexists. split; [exact H0 |]. split; [exact H1 |].
    cbn [tx_text tx_rtlMarker]. split; [reflexivity |]. split.
    + apply currentRtlMarker_iff.
    + rewrite <- currentRtlMarker_iff. unfold currentRtlMarker.
      destruct (isRtlScript _); split; intros H;
        try discriminate; try reflexivity; congruence.
Qed.

Lemma rtl_marker_iff_cue_script_witness :
  exists doc tx,
    createRoundedAss mixedCues None None false noOptions = inr doc
    /\ doc_language doc = cjk
    /\ doc_events doc !! 3%nat = Some (Dialogue tx)
    /\ tx_rtlMarker tx = rtlMarker.
Proof.
  destruct (proj2 rtl_marker_iff_cue_script mixedCues None None false
              noOptions _ 1%nat _ eq_refl eq_refl)
    as (bg & tx & _ & Htx & _ & Hrtl & _).
  eexists. exists tx. split; [reflexivity |]. split; [reflexivity |].
  split; [exact Htx |]. apply Hrtl. left. reflexivity.
Defined.

End RtlMarker.

(** ** Heuristic text dimensions *)

Section HeuristicDimensions.
Local Open Scope Q_scope.

Lemma countBreaks_after_N (r : jsstring) :
  countBreaks (Text.capitalN :: r) = countBreaks r.
Proof. destruct r; reflexivity. Qed.

Lemma matchBreak_Some (s : jsstring) (n : nat) :
  Text.matchBreak s = Some n ->
  n = 2%nat /\ exists r, s = Text.backslash :: Text.capitalN :: r.
Proof.
  destruct s as [| a [| b r]]; try discriminate. cbn.
  destruct (a =? Text.backslash)%N eqn:Ea; [| discriminate].
  destruct (b =? Text.capitalN)%N eqn:Eb; [| discriminate].
  apply N.eqb_eq in Ea, Eb. subst. intros [= <-]. eauto.
Qed.

Lemma matchBreak_None (a b : N) (r : jsstring) :
  Text.matchBreak (a :: b :: r) = None ->
  (a =? Text.backslash)%N && (b =? Text.capitalN)%N = false.
Proof. cbn. now destruct (_ && _). Qed.

Lemma countBreaks_cons2 (a b : N) (r : jsstring) :
  countBreaks (a :: b :: r)
  = ((if (a =? Text.backslash)%N && (b =? Text.capitalN)%N then 1 else 0)
     + countBreaks (b :: r))%nat.
Proof. reflexivity. Qed.

(** The scan counts each forced line break once. *)
Lemma countAllFrom_breaks (s : jsstring) :
  Text.countAllFrom Text.matchBreak 0 s = countBreaks s
  /\ Text.countAllFrom Text.matchBreak 1 s = countBreaks (tail s).
Proof.
  induction s as [| a rest [IH0 IH1]]; [split; reflexivity |].
  split; [| exact IH0].
  cbn [Text.countAllFrom].
  destruct (Text.matchBreak (a :: rest)) as [n |] eqn:Hm.
  - apply matchBreak_Some in Hm. destruct Hm as (-> & r & [= -> ->]).
    rewrite IH1. cbn [tail].
    now rewrite countBreaks_cons2, countBreaks_after_N.
  - rewrite IH0. destruct rest as [| b r]; [reflexivity |].
    apply matchBreak_None in Hm. now rewrite countBreaks_cons2, Hm.
Qed.

(** Replacing each forced line break by a space shortens the text by one
    code unit per break. *)
Lemma replace_breaks_length (s : jsstring) :
  (length (Text.replaceAllFrom Text.matchBreak [Text.space] 0 s)
     + countBreaks s = length s
   /\ length (Text.replaceAllFrom Text.matchBreak [Text.space] 1 s)
      + countBreaks (tail s) = length (tail s))%nat.
Proof.
  induction s as [| a rest [IH0 IH1]]; [split; reflexivity |].
  split; [| exact IH0].
  cbn [Text.replaceAllFrom].
  destruct (Text.matchBreak (a :: rest)) as [n |] eqn:Hm.
  - apply matchBreak_Some in Hm. destruct Hm as (-> & r & [= -> ->]).
    cbn [tail] in IH1. rewrite countBreaks_cons2, countBreaks_after_N.
    cbn [app length] in *.
    change ((Text.backslash =? Text.backslash)%N
            && (Text.capitalN =? Text.capitalN)%N) with true.
    cbn iota. lia.
  - destruct rest as [| b r]; [reflexivity |].
    apply matchBreak_None in Hm. rewrite countBreaks_cons2, Hm.
    cbn [length] in *. lia.
Qed.

Lemma closeTag_found (tag rest : jsstring) :
  ~ In Text.closeBrace tag ->
  (forall c, In c tag -> Text.isLineTerminator c = false) ->
  Text.closeTag (tag ++ Text.closeBrace :: rest) = Some (S (length tag)).
Proof.
  induction tag as [| c tag IH]; intros Hno Hlt; [reflexivity |].
  cbn [app Text.closeTag length].
  destruct (N.eqb_spec c Text.closeBrace) as [-> | Hc].
  - exfalso. apply Hno. now left.
  - rewrite (Hlt c (or_introl eq_refl)), IH; [reflexivity | |].
    + intros H. apply Hno. now right.
    + intros d Hd. apply Hlt. now right.
Qed.

Lemma replaceAllFrom_skip (m : Text.matcher) (rep pre rest : jsstring) :
  Text.replaceAllFrom m rep (length pre) (pre ++ rest)
  = Text.replaceAllFrom m rep 0 rest.
Proof. induction pre as [| c pre IH]; [reflexivity | exact IH]. Qed.

Lemma isLineTerminator_false (c : N) :
  Text.isLineTerminator c = false <-> ~ lineTerminator c.
Proof.
  unfold Text.isLineTerminator, lineTerminator.
  destruct (N.eqb_spec c 10), (N.eqb_spec c 13), (N.eqb_spec c 8232),
    (N.eqb_spec c 8233); cbn; intuition (discriminate || congruence).
Qed.

Lemma tagBody_closeTag (tag rest : jsstring) :
  tagBody tag ->
  Text.closeTag (tag ++ Text.closeBrace :: rest) = Some (S (length tag)).
Proof.
  intros Hb. apply closeTag_found.
  - intros Hin. destruct (Hb _ Hin) as [H _]. now apply H.
  - intros c Hin. apply isLineTerminator_false. now destruct (Hb _ Hin).
Qed.

(** Where the lazy pattern finds its closing brace, a tag body stands
    before it. *)
Lemma closeTag_Some (s : jsstring) (n : nat) :
  Text.closeTag s = Some n ->
  exists tag rest,
    tagBody tag /\ s = tag ++ Text.closeBrace :: rest /\ n = S (length tag).
Proof.
  revert n. induction s as [| c s IH]; intros n; [discriminate |].
  cbn [Text.closeTag].
  destruct (N.eqb_spec c Text.closeBrace) as [-> | Hc].
  - intros [= <-]. exists [], s.
    split; [intros d [] | split; reflexivity].
  - destruct (Text.isLineTerminator c) eqn:Hlt; [discriminate |].
    destruct (Text.closeTag s) as [k |]; [| discriminate].
    intros [= <-]. destruct (IH k eq_refl) as (tag & rest & Hb & -> & ->).
    exists (c :: tag), rest. split; [| split; reflexivity].
    intros d [<- | Hd]; [| now apply Hb].
    split; [exact Hc | now apply isLineTerminator_false].
Qed.

Lemma matchTag_Some (s : jsstring) (n : nat) :
  Text.matchTag s = Some n -> startsWithTag s.
Proof.
  destruct s as [| c rest]; [discriminate |]. cbn [Text.matchTag].
  destruct (N.eqb_spec c Text.openBrace) as [-> | Hc]; [| discriminate].
  destruct (Text.closeTag rest) as [k |] eqn:Hk; [| discriminate].
  intros _. destruct (closeTag_Some _ _ Hk) as (tag & r & Hb & -> & _).
  now exists tag, r.
Qed.

Lemma matchTag_tag (tag rest : jsstring) :
  tagBody tag ->
  Text.matchTag (Text.openBrace :: tag ++ Text.closeBrace :: rest)
  = Some (S (S (length tag))).
Proof.
  intros Hb. cbn [Text.matchTag].
  change (Text.openBrace =? Text.openBrace)%N with true. cbn iota.
  now rewrite tagBody_closeTag.
Qed.

Lemma stripTags_tag (tag rest : jsstring) :
  tagBody tag ->
  Text.replaceAllFrom Text.matchTag [] 0
    (Text.openBrace :: tag ++ Text.closeBrace :: rest)
  = Text.replaceAllFrom Text.matchTag [] 0 rest.
Proof.
  intros Hb. cbn [Text.replaceAllFrom].
  rewrite (matchTag_tag tag rest Hb). cbn [app].
  replace (tag ++ Text.closeBrace :: rest)
    with ((tag ++ [Text.closeBrace]) ++ rest)
    by (now rewrite <- app_assoc).
  replace (S (length tag)) with (length (tag ++ [Text.closeBrace]))
    by (rewrite length_app; cbn; lia).
  apply replaceAllFrom_skip.
Qed.

Lemma stripTags_keep (c : N) (rest : jsstring) :
  ~ startsWithTag (c :: rest) ->
  Text.replaceAllFrom Text.matchTag [] 0 (c :: rest)
  = c :: Text.replaceAllFrom Text.matchTag [] 0 rest.
Proof.
  intros Hno. cbn [Text.replaceAllFrom].
  destruct (Text.matchTag (c :: rest)) as [n |] eqn:Hm; [| reflexivity].
  exfalso. apply Hno. eapply matchTag_Some. exact Hm.
Qed.

(** The first replacement of the code removes the tag spans, and nothing
    else does. *)
Lemma TagSpansRemoved_fun (text out : jsstring) :
  TagSpansRemoved text out -> out = Text.replaceAll Text.matchTag [] text.
Proof.
  induction 1 as [| tag rest out Hb _ IH | c rest out Hno _ IH];
    unfold Text.replaceAll in *.
  - reflexivity.
  - now rewrite stripTags_tag.
  - rewrite stripTags_keep by assumption. now f_equal.
Qed.

Lemma TagSpansRemoved_total (text : jsstring) :
  TagSpansRemoved text (Text.replaceAll Text.matchTag [] text).
Proof.
  unfold Text.replaceAll.
  remember (length text) as n eqn:Hn. revert text Hn.
  induction n as [n IH] using lt_wf_ind. intros text ->.
  destruct text as [| c rest]; [constructor |].
  destruct (Text.matchTag (c :: rest)) as [k |] eqn:Hm.
  - destruct (matchTag_Some _ _ Hm) as (tag & r & Hb & E). rewrite E.
    rewrite stripTags_tag by exact Hb. apply tsr_tag; [exact Hb |].
    apply (IH (length r)); [| reflexivity].
    rewrite E. cbn [length]. rewrite length_app. cbn [length]. lia.
  - assert (Hno : ~ startsWithTag (c :: rest)).
    { intros (tag & r & Hb & E). rewrite E, matchTag_tag in Hm by exact Hb.
      discriminate. }
    rewrite stripTags_keep by exact Hno. apply tsr_keep; [exact Hno |].
    apply (IH (length rest)); [cbn; lia | reflexivity].
Qed.

Lemma replaceBreaks_break (rest : jsstring) :
  Text.replaceAllFrom Text.matchBreak [Text.space] 0
    (Text.backslash :: Text.capitalN :: rest)
  = Text.space :: Text.replaceAllFrom Text.matchBreak [Text.space] 0 rest.
Proof. reflexivity. Qed.

Lemma replaceBreaks_keep (c : N) (rest : jsstring) :
  (forall r, c :: rest <> Text.backslash :: Text.capitalN :: r) ->
  Text.replaceAllFrom Text.matchBreak [Text.space] 0 (c :: rest)
  = c :: Text.replaceAllFrom Text.matchBreak [Text.space] 0 rest.
Proof.
  intros Hno. cbn [Text.replaceAllFrom].
  destruct (Text.matchBreak (c :: rest)) as [n |] eqn:Hm; [| reflexivity].
  apply matchBreak_Some in Hm. destruct Hm as (_ & r & E).
  now destruct (Hno r).
Qed.

(** The second replacement of the code puts a space for each forced line
    break, and nothing else does. *)
Lemma BreaksSpaced_fun (text out : jsstring) :
  BreaksSpaced text out ->
  out = Text.replaceAll Text.matchBreak [Text.space] text.
Proof.
  induction 1 as [| rest out _ IH | c rest out Hno _ IH];
    unfold Text.replaceAll in *.
  - reflexivity.
  - rewrite replaceBreaks_break. now f_equal.
  - rewrite replaceBreaks_keep by assumption. now f_equal.
Qed.

Lemma BreaksSpaced_total (text : jsstring) :
  BreaksSpaced text (Text.replaceAll Text.matchBreak [Text.space] text).
Proof.
  unfold Text.replaceAll.
  remember (length text) as n eqn:Hn. revert text Hn.
  induction n as [n IH] using lt_wf_ind. intros text ->.
  destruct text as [| c rest]; [constructor |].
  destruct (Text.matchBreak (c :: rest)) as [k |] eqn:Hm.
  - apply matchBreak_Some in Hm. destruct Hm as (_ & r & E). rewrite E.
    rewrite replaceBreaks_break. apply bs_break.
    apply (IH (length r)); [| reflexivity].
    injection E as -> ->. cbn. lia.
  - assert (Hno : forall r, c :: rest <> Text.backslash :: Text.capitalN :: r).
    { intros r E. rewrite E in Hm. discriminate. }
    rewrite replaceBreaks_keep by exact Hno. apply bs_keep; [exact Hno |].
    apply (IH (length rest)); [cbn; lia | reflexivity].
Qed.

(** C8. Every text has a reading without its tag spans, and that one
    a reading with a space for each forced line break: the cleaned text
    of the code.  Whatever text is obtained in this way, the estimate is
    [width = min(charCount * fontSize * 0.6, canvasWidth * 0.9)] with
    [charCount] its length, and [height = fontSize * 1.2 * lineCount] with
    [lineCount] one more than the number of forced line breaks in the text
    as given. *)
Theorem heuristic_dimensions (text : jsstring) (fontName : string)
    (fontSize videoWidth : Q) :
  let estimate := calculateTextDimensions text fontName fontSize videoWidth in
  (exists stripped,
      TagSpansRemoved text stripped /\ BreaksSpaced stripped (cleanText text))
  /\ (forall stripped cleaned,
        TagSpansRemoved text stripped -> BreaksSpaced stripped cleaned ->
        width estimate
        == Qmin (ofNat (length cleaned) * fontSize * (6 # 10))
             (videoWidth * (9 # 10)))
  /\ height estimate == fontSize * (12 # 10) * ofNat (countBreaks text + 1).
Proof.
  intros estimate. split; [| split].
  - exists (Text.replaceAll Text.matchTag [] text). split.
    + apply TagSpansRemoved_total.
    + apply BreaksSpaced_total.
  - intros stripped cleaned Hs Hc.
    apply TagSpansRemoved_fun in Hs. apply BreaksSpaced_fun in Hc.
    subst stripped cleaned estimate. cbn [calculateTextDimensions width].
    fold (cleanText text).
    set (n := ofNat (length (cleanText text))). clearbody n.
    assert (E : n * (fontSize * (6 # 10)) == n * fontSize * (6 # 10)) by ring.
    set (a := n * (fontSize * (6 # 10))) in *.
    set (b := n * fontSize * (6 # 10)) in *.
    clearbody a b. minmax_lra.
  - subst estimate. cbn [calculateTextDimensions height].
    unfold Text.countAll. now rewrite (proj1 (countAllFrom_breaks text)).
Qed.

Lemma heuristic_dimensions_witness :
  width (calculateTextDimensions (Text.lit "{\an8}Hi\NYou") "Arial" 48 1920)
  == Qmin (ofNat (length (Text.lit "Hi You")) * 48 * (6 # 10))
       (1920 * (9 # 10)).
Proof.
  apply (proj1 (proj2 (heuristic_dimensions (Text.lit "{\an8}Hi\NYou")
                         "Arial" 48 1920))
           (Text.lit "Hi\NYou") (Text.lit "Hi You")).
  - apply (tsr_tag (Text.lit "\an8") (Text.lit "Hi\NYou") (Text.lit "Hi\NYou")).
    + intros c [<- | [<- | [<- | [<- | []]]]]; split; try discriminate;
        intros [H | [H | [H | H]]]; discriminate.
    + repeat (apply tsr_keep; [intros (tag & r & _ & E); discriminate |]).
      apply tsr_nil.
  - do 2 (apply bs_keep; [intros r E; discriminate |]).
    apply bs_break.
    do 3 (apply bs_keep; [intros r E; discriminate |]).
    apply bs_nil.
Defined.

End HeuristicDimensions.

(** ** Box width *)

Section BoxWidth.
Local Open Scope Q_scope.

Lemma paddedWidth_zero ext tw : paddingH ext == 0 -> paddedWidth ext tw = tw + 2.
Proof.
  intros H. unfold paddedWidth. apply Qeq_bool_iff in H. now rewrite H.
Qed.

Lemma paddedWidth_nonzero ext tw :
  ~ paddingH ext == 0 -> paddedWidth ext tw = tw + paddingH ext * 2.
Proof.
  intros H. unfold paddedWidth.
  destruct (Qeq_bool (paddingH ext) 0) eqn:E; [| reflexivity].
  apply Qeq_bool_iff in E. contradiction.
Qed.

Lemma or_else_nonzero (v : option Q) (d : Q) :
  ~ d == 0 -> ~ JS.or_else v d == 0.
Proof.
  intros Hd. unfold JS.or_else, JS.truthy. destruct v as [x |]; [| exact Hd].
  destruct (Qeq_bool x 0) eqn:E; cbn [negb]; [exact Hd |].
  now apply Qeq_bool_neq.
Qed.

Lemma resolved_paddingH_nonzero (options : Options) :
  ~ paddingH (resolveConfig options) == 0.
Proof. cbn. apply or_else_nonzero. discriminate. Qed.

(** C3, where the code departs from it.  For every call the box of a cue
    is as wide as its text plus twice the resolved horizontal padding,
    capped at 0.98 of the canvas width, raised to the minimum width only
    when the floor is enabled (it is disabled unless the caller enables
    it), and capped at the maximum ratio of the canvas width.  The case
    of the text plus 2 is not met by a caller who sets [paddingX] to 0:
    the padded width is then the text plus 40, and with a measured text
    width of 50 the background of the cue is drawn 90 wide, not 52. *)
Theorem zero_paddingX_box_is_90 :
  (forall options canvas tw,
      let ext := resolveConfig options in
      let capped :=
        Qmin (tw + 2 * paddingH ext) (videoWidth canvas * (98 # 100)) in
      cueBoxWidth ext canvas tw
      == Qmin (if disableMinWidth ext then capped
               else Qmax capped (videoWidth canvas * minWidthRatio ext))
           (maxWidthRatio ext * videoWidth canvas))
  /\ (forall options,
        opt_disableMinWidth options = None ->
        disableMinWidth (resolveConfig options) = true)
  /\ (forall options p tw,
        opt_paddingX options = Some p -> p == 0 ->
        paddedWidth (resolveConfig options) tw == tw + 40)
  /\ (exists doc bg,
        createRoundedAss oneCue None (Some measured50) false (withPaddingX 0)
        = inr doc
        /\ doc_events doc !! 0%nat = Some (Background bg)
        /\ drawingWidth (bg_drawing bg) == 90
        /\ ~ drawingWidth (bg_drawing bg) == 52).
Proof.
  split; [| split; [| split]].
  - intros options canvas tw ext capped. unfold cueBoxWidth.
    rewrite (paddedWidth_nonzero ext tw (resolved_paddingH_nonzero options)).
    assert (Ec : Qmin (tw + paddingH ext * 2) (videoWidth canvas * (98 # 100))
                 == capped).
    { subst capped.
      assert (E : tw + paddingH ext * 2 == tw + 2 * paddingH ext) by ring.
      set (a := tw + paddingH ext * 2) in *.
      set (b := tw + 2 * paddingH ext) in *.
      clearbody a b. minmax_lra. }
    set (c0 := Qmin (tw + paddingH ext * 2) (videoWidth canvas * (98 # 100)))
      in *.
    assert (E : videoWidth canvas * maxWidthRatio ext
                == maxWidthRatio ext * videoWidth canvas) by ring.
    set (mx := videoWidth canvas * maxWidthRatio ext) in *.
    set (mx' := maxWidthRatio ext * videoWidth canvas) in *.
    set (mn := videoWidth canvas * minWidthRatio ext).
    clearbody mx mx' mn capped c0.
    destruct (disableMinWidth ext); cbn [negb]; minmax_lra.
  - intros options H. unfold resolveConfig, extendConfig. cbn. now rewrite H.
  - intros options p tw Hopt Hp.
    rewrite (paddedWidth_nonzero _ tw (resolved_paddingH_nonzero options)).
    assert (E : paddingH (resolveConfig options) = 20).
    { cbn. rewrite Hopt. cbn. unfold JS.truthy.
      apply Qeq_bool_iff in Hp. now rewrite Hp. }
    rewrite E. ring.
  - eexists. eexists. split; [reflexivity |]. split; [reflexivity |].
    split; vm_compute; [reflexivity | discriminate].
Qed.

Lemma zero_paddingX_box_is_90_witness :
  paddedWidth (resolveConfig (withPaddingX 0)) 50 == 50 + 40.
Proof.
  apply (proj1 (proj2 (proj2 zero_paddingX_box_is_90)) (withPaddingX 0) 0 50);
    reflexivity.
Defined.

(** C9. A [paddingX] of 0 in the options is replaced by the default 20
    when the configuration is resolved, and no options give a resolved
    horizontal padding of 0; so the box of a cue is always its text plus
    twice the resolved padding, never the text plus 2 of the zero-padding
    branch. *)
Theorem zero_paddingX_discarded :
  (forall options p,
      opt_paddingX options = Some p -> p == 0 ->
      Config.paddingX (Config.resolve options) = 20
      /\ paddingH (resolveConfig options) = 20)
  /\ (forall options, ~ paddingH (resolveConfig options) == 0)
  /\ (forall options, Qeq_bool (paddingH (resolveConfig options)) 0 = false)
  /\ (forall options tw,
        paddedWidth (resolveConfig options) tw
        = tw + paddingH (resolveConfig options) * 2)
  /\ cueBoxWidth (resolveConfig (withPaddingX 0)) defaultCanvas 50 == 90.
Proof.
  assert (Hnz : forall options, ~ paddingH (resolveConfig options) == 0).
  { intros options. cbn. apply or_else_nonzero. discriminate. }
  split; [| split; [| split; [| split]]].
  - intros options p Hopt Hp. cbn. rewrite Hopt. cbn.
    unfold JS.truthy. apply Qeq_bool_iff in Hp. rewrite Hp. now split.
  - exact Hnz.
  - intros options. destruct (Qeq_bool _ 0) eqn:E; [| reflexivity].
    apply Qeq_bool_iff in E. now apply Hnz in E.
  - intros options tw. apply paddedWidth_nonzero, Hnz.
  - vm_compute. reflexivity.
Qed.

Lemma zero_paddingX_discarded_witness :
  Config.paddingX (Config.resolve (withPaddingX 0)) = 20
  /\ paddingH (resolveConfig (withPaddingX 0)) = 20.
Proof.
  apply (proj1 zero_paddingX_discarded (withPaddingX 0) 0); reflexivity.
Defined.

End BoxWidth.

(** ** Background alpha *)

Section BackgroundAlpha.
Local Open Scope Z_scope.

Lemma or_elseZ_nonzero (v : option Z) (d : Z) : d <> 0 -> JS.or_elseZ v d <> 0.
Proof.
  intros Hd. unfold JS.or_elseZ, JS.truthyZ. destruct v as [x |]; [| exact Hd].
  destruct (Z.eqb_spec x 0); cbn [negb]; assumption.
Qed.

Lemma or_elseZ_unsetOrZero (v : option Z) (d : Z) :
  unsetOrZero v -> JS.or_elseZ v d = d.
Proof. intros [-> | ->]; reflexivity. Qed.

(** The two steps of the resolution amount to: the first of [bgAlpha],
    [opacity] and 80 that is not 0. *)
Lemma bgAlpha_resolved (options : Options) :
  bgAlpha (resolveConfig options)
  = JS.or_elseZ (opt_bgAlpha options) (JS.or_elseZ (opt_opacity options) 80).
Proof.
  cbn. f_equal. unfold JS.or_elseZ at 1. unfold JS.truthyZ at 1.
  destruct (opt_opacity options) as [x |]; [| reflexivity].
  cbn. unfold JS.truthyZ. destruct (Z.eqb_spec x 0) as [-> | Hx]; cbn [negb].
  - reflexivity.
  - now destruct (Z.eqb_spec x 0).
Qed.

Lemma cueEvents_alpha options extendedConfig canvas fontName fontSize
    marginBottom subtitleDimensions idx sub :
  Forall (fun e => forall bg, e = Background bg ->
              bg_alphaHex bg = JS.padStart0 2 (JS.intToHex (bgAlpha extendedConfig)))
    (cueEvents options extendedConfig canvas fontName fontSize marginBottom
       subtitleDimensions idx sub).
Proof.
  repeat constructor.
  - intros bg [= <-]. reflexivity.
  - intros bg [=].
Qed.

(** C10, as stated, fails when the other alpha option is set: with
    [opacity] 0 and [bgAlpha] 128 the resolved alpha is 128, not 80. *)
Lemma zero_opacity_with_bgAlpha_128 :
  ~ (forall options,
        opt_opacity options = Some 0 \/ opt_bgAlpha options = Some 0 ->
        bgAlpha (resolveConfig options) = 80).
Proof.
  intros H. specialize (H (withAlpha 0 128) (or_introl eq_refl)).
  vm_compute in H. discriminate.
Qed.

(** C10, amended. When one of [opacity] and [bgAlpha] is 0 and the other
    is 0 or left out, the alpha written into the background events is 80
    (hexadecimal 50), not 0.  In every call the resolved alpha is the first
    of [bgAlpha], [opacity] and 80 that is not 0, hence never 0. *)
Theorem zero_alpha_coalesced :
  (forall options,
      unsetOrZero (opt_opacity options) -> unsetOrZero (opt_bgAlpha options) ->
      bgAlpha (resolveConfig options) = 80)
  /\ (forall options, bgAlpha (resolveConfig options) <> 0)
  /\ (forall options,
        bgAlpha (resolveConfig options)
        = JS.or_elseZ (opt_bgAlpha options)
            (JS.or_elseZ (opt_opacity options) 80))
  /\ (forall subtitles probe measurement win32 options doc,
        createRoundedAss subtitles probe measurement win32 options = inr doc ->
        Forall (fun e => forall bg, e = Background bg ->
                    bg_alphaHex bg
                    = JS.padStart0 2
                        (JS.intToHex (bgAlpha (resolveConfig options))))
          (doc_events doc))
  /\ JS.padStart0 2 (JS.intToHex 80) = "50"%string.
Proof.
  split; [| split; [| split; [| split]]].
  - intros options Ho Hb. rewrite bgAlpha_resolved.
    now rewrite (or_elseZ_unsetOrZero _ _ Hb), (or_elseZ_unsetOrZero _ _ Ho).
  - intros options. rewrite bgAlpha_resolved.
    apply or_elseZ_nonzero, or_elseZ_nonzero. discriminate.
  - exact bgAlpha_resolved.
  - intros subtitles probe measurement win32 options doc Hdoc.
    eapply doc_events_Forall; [exact Hdoc |].
    intros idx sub _. apply cueEvents_alpha.
  - reflexivity.
Qed.

Lemma zero_alpha_coalesced_witness :
  bgAlpha (resolveConfig (withAlpha 0 0)) = 80
  /\ exists doc,
       createRoundedAss exampleCues None None false (withAlpha 0 0) = inr doc
       /\ Forall (fun e => forall bg, e = Background bg ->
                     bg_alphaHex bg
                     = JS.padStart0 2
                         (JS.intToHex (bgAlpha (resolveConfig (withAlpha 0 0)))))
            (doc_events doc).
Proof.
  split.
  - apply (proj1 zero_alpha_coalesced (withAlpha 0 0)); right; reflexivity.
  - eexists. split; [reflexivity |].
    apply (proj1 (proj2 (proj2 (proj2 zero_alpha_coalesced)))
             exampleCues None None false (withAlpha 0 0)).
    reflexivity.
Defined.

End BackgroundAlpha.

(** ** Timestamps *)

Section TimestampFormat.
Local Open Scope Q_scope.

Lemma rem_range (x m : Q) : 0 <= x -> 0 < m -> 0 <= JS.rem x m < m.
Proof.
  intros Hx Hm. unfold JS.rem, JS.trunc.
  assert (Hq : 0 <= x / m) by (apply Qle_shift_div_l; lra).
  destruct (JS.lt (x / m) 0) eqn:E; [apply lt_true_iff in E; lra |].
  pose proof (Qfloor_le (x / m)) as Hlo.
  pose proof (Qlt_floor (x / m)) as Hhi.
  rewrite inject_Z_plus in Hhi. change (inject_Z 1) with 1 in Hhi.
  set (f := inject_Z (Qfloor (x / m))) in *. clearbody f.
  assert (Ex : x == m * (x / m)) by (field; lra).
  set (q := x / m) in *. clearbody q.
  split.
  - rewrite Ex at 1. assert (0 <= m * (q - f)) by (apply Qmult_le_0_compat; lra).
    lra.
  - rewrite Ex at 1. assert (0 < m * (f + 1 - q)) by (apply Qmult_lt_0_compat; lra).
    lra.
Qed.

(** For a non-negative time the minutes lie in [0, 59]. *)
Lemma minutesOf_range (seconds : Q) :
  0 <= seconds -> (0 <= minutesOf seconds < 60)%Z.
Proof.
  intros Hs. unfold minutesOf.
  destruct (rem_range seconds 3600 Hs ltac:(reflexivity)) as [Hlo Hhi].
  set (r := JS.rem seconds 3600) in *. clearbody r.
  split.
  - change 0%Z with (Qfloor 0). apply Qfloor_resp_le.
    apply Qle_shift_div_l; [reflexivity | lra].
  - assert (H : inject_Z (Qfloor (r / 60)) < inject_Z 60).
    { eapply Qle_lt_trans; [apply Qfloor_le |].
      change (inject_Z 60) with 60. apply Qlt_shift_div_r; [reflexivity | lra]. }
    now rewrite <- Zlt_Qlt in H.
Qed.

(** The seconds field is printed from a number of hundredths between 0
    and 6000, and 6000 (printed [60.00]) is reached: exactly when the
    seconds within the minute are 59.995 or more. *)
Lemma centisecondsOf_range (seconds : Q) :
  0 <= seconds ->
  (0 <= centisecondsOf seconds <= 6000)%Z
  /\ (centisecondsOf seconds = 6000%Z <-> (59995 # 1000) <= JS.rem seconds 60).
Proof.
  intros Hs. unfold centisecondsOf, JS.hundredths, secsOf.
  destruct (rem_range seconds 60 Hs ltac:(reflexivity)) as [Hlo Hhi].
  set (r := JS.rem seconds 60) in *. clearbody r.
  rewrite (Qabs_pos r Hlo).
  pose proof (Qfloor_le (r * 100 + (1 # 2))) as Hfl.
  pose proof (Qlt_floor (r * 100 + (1 # 2))) as Hfu.
  rewrite inject_Z_plus in Hfu. change (inject_Z 1) with 1 in Hfu.
  set (n := Qfloor (r * 100 + (1 # 2))) in *. clearbody n.
  assert (H0 : (-1 < n)%Z).
  { rewrite Zlt_Qlt. change (inject_Z (-1)) with (-1). lra. }
  assert (H1 : (n < 6001)%Z).
  { rewrite Zlt_Qlt. change (inject_Z 6001) with 6001. lra. }
  split; [lia |]. split.
  - intros ->. change (inject_Z 6000) with 6000 in *. lra.
  - intros Hr. assert (H2 : (5999 < n)%Z).
    { rewrite Zlt_Qlt. change (inject_Z 5999) with 5999. lra. }
    lia.
Qed.

(** C4 at the time 59.999 seconds, the start of a cue parsed from
    [00:00:59,999]: the seconds field reads [60.00]. *)
Theorem formatAssTime_seconds_field_60 :
  formatAssTime (59999 # 1000) = "0:00:60.00"%string
  /\ formatAssTime
       (Cue.start (toInternal 0 {| p_start := 59999; p_end := 61000;
                                   p_text := Text.lit "Hi" |}))
     = "0:00:60.00"%string
  /\ formatAssTime (3599999 # 1000) = "0:59:60.00"%string.
Proof. repeat split; vm_compute; reflexivity. Qed.

End TimestampFormat.

(** * Further properties of the code *)

(** ** Border radius and drawing *)

Section RadiusAndDrawing.
Local Open Scope Q_scope.

Lemma maxAllowed_positive (hw hh : Q) : 0 < Qmax 1 (Qmin hh hw - 1).
Proof. minmax_lra. Qed.

Lemma drawnRadius_gt (hw hh r : Q) :
  JS.gt (drawnRadius hw hh r) 0 = JS.gt r 0.
Proof.
  unfold drawnRadius. destruct (JS.gt r 0) eqn:Hr.
  - apply gt_true_iff. apply gt_true_iff in Hr.
    pose proof (maxAllowed_positive hw hh). minmax_lra.
  - reflexivity.
Qed.

Lemma Qmin_idem_r (a b : Q) : Qmin (Qmin a b) b = Qmin a b.
Proof.
  unfold Qmin, GenericMinMax.gmin.
  destruct (a ?= b) eqn:E; rewrite ?E; try reflexivity.
  now rewrite (proj1 (Qeq_alt b b) (Qeq_refl b)).
Qed.

(** Clamping a radius that is already clamped changes nothing. *)
Lemma drawnRadius_idem (hw hh r : Q) :
  drawnRadius hw hh (drawnRadius hw hh r) = drawnRadius hw hh r.
Proof.
  unfold drawnRadius at 1. rewrite drawnRadius_gt. unfold drawnRadius.
  destruct (JS.gt r 0); [apply Qmin_idem_r | reflexivity].
Qed.

(** X1. A radius the caller specifies is clamped to the interval from 0
    to [max(1, min(halfHeight, halfWidth) - 1)]: a radius inside the interval
    is returned as it is, a negative one gives 0, a larger one the upper
    end. *)
Theorem determineBorderRadius_specified_clamps (r hw hh vw vh : Q) :
  clampedTo 0 (Qmax 1 (Qmin hh hw - 1)) r
    (determineBorderRadius (Some r) hw hh vw vh).
Proof.
  unfold clampedTo, determineBorderRadius.
  pose proof (maxAllowed_positive hw hh) as HM.
  set (M := Qmax 1 (Qmin hh hw - 1)) in *. clearbody M.
  destruct (JS.gt r 0) eqn:Hr.
  - apply gt_true_iff in Hr. minmax_lra.
  - apply gt_false_iff in Hr. repeat split; intros; lra.
Qed.

(** X2. Without a specified radius the result is
    [min(10 * min(videoWidth, videoHeight) / 1080, min(halfWidth, halfHeight) / 4)]
    for every box and canvas: a quarter of the smaller half size never
    exceeds the largest allowed radius, so the final limit never applies. *)
Theorem determineBorderRadius_auto_formula (hw hh vw vh : Q) :
  determineBorderRadius None hw hh vw vh
  == Qmin (10 * (Qmin vw vh / 1080)) (Qmin hw hh / 4)
  /\ determineBorderRadius None hw hh vw vh <= Qmin hw hh / 4
  /\ determineBorderRadius None hw hh vw vh <= 10 * (Qmin vw vh / 1080).
Proof.
  unfold determineBorderRadius.
  set (s := 10 * (Qmin vw vh / 1080)). clearbody s.
  assert (Hq : Qmin hw hh / 4 == Qmin hw hh * (1 # 4)) by (field; lra).
  set (q := Qmin hw hh / 4) in *. clearbody q.
  set (d := Qmin hw hh) in *. clearbody d.
  minmax_lra.
Qed.

(** X3. The path is closed and has one of two shapes.  It starts with a
    move and its last command ends at the point moved to.  For a radius
    above 0 it has nine commands, four of them curves; otherwise it is the
    plain rectangle of five commands without curves. *)
Theorem drawing_closed (hw hh r : Q) :
  (exists x y rest final,
      generateRoundedRectDrawing hw hh r = Move x y :: rest
      /\ last rest = Some final
      /\ endPoint final = (x, y))
  /\ (0 < r ->
      length (generateRoundedRectDrawing hw hh r) = 9%nat
      /\ length (filter (fun c => isBezier c = true)
                   (generateRoundedRectDrawing hw hh r)) = 4%nat)
  /\ (r <= 0 ->
      generateRoundedRectDrawing hw hh r
      = [ Move (- hw) (- hh); Line hw (- hh); Line hw hh;
          Line (- hw) hh; Line (- hw) (- hh) ]).
Proof.
  unfold generateRoundedRectDrawing. rewrite drawnRadius_gt.
  destruct (JS.gt r 0) eqn:Hr.
  - split; [| split].
    + do 4 eexists. split; [reflexivity |]. split; reflexivity.
    + intros _. split; reflexivity.
    + intros Hle. apply gt_true_iff in Hr. lra.
  - split; [| split].
    + do 4 eexists. split; [reflexivity |]. split; reflexivity.
    + intros Hlt. apply gt_false_iff in Hr. lra.
    + reflexivity.
Qed.

Lemma drawing_closed_witness :
  length (generateRoundedRectDrawing 40 20 5) = 9%nat
  /\ generateRoundedRectDrawing 40 20 0
     = [ Move (- 40) (- 20); Line 40 (- 20); Line 40 20;
         Line (- 40) 20; Line (- 40) (- 20) ].
Proof.
  split.
  - apply (proj1 (proj2 (drawing_closed 40 20 5))). reflexivity.
  - apply (proj2 (proj2 (drawing_closed 40 20 0))). discriminate.
Defined.

(** X4. For a box with half sizes of at least 1, every point of the path,
    control points included, lies in the box, whatever radius is asked for,
    and the two corners on an edge do not overlap. *)
Theorem drawing_inside_box (hw hh r : Q) :
  1 <= hw -> 1 <= hh ->
  Forall (inBox hw hh) (flat_map cmdPoints (generateRoundedRectDrawing hw hh r))
  /\ - hw + drawnRadius hw hh r <= hw - drawnRadius hw hh r
  /\ - hh + drawnRadius hw hh r <= hh - drawnRadius hw hh r.
Proof.
  intros Hw Hh.
  pose proof (drawnRadius_bounded hw hh r) as [H0 H1].
  assert (Hrw : drawnRadius hw hh r <= hw) by minmax_lra.
  assert (Hrh : drawnRadius hw hh r <= hh) by minmax_lra.
  unfold generateRoundedRectDrawing.
  set (rho := drawnRadius hw hh r) in *. clearbody rho.
  split; [| split; lra].
  destruct (JS.gt rho 0); cbn [flat_map cmdPoints app];
    repeat constructor; cbn [fst snd]; lra.
Qed.

Lemma drawing_inside_box_witness :
  Forall (inBox 40 20) (flat_map cmdPoints (generateRoundedRectDrawing 40 20 1000)).
Proof.
  apply (proj1 (drawing_inside_box 40 20 1000 ltac:(discriminate)
                  ltac:(discriminate))).
Defined.

(** X5. The limit applied by [determineBorderRadius] to a specified radius
    is the one the drawing applies again: the path drawn for the resolved
    radius is the path drawn for the radius as specified. *)
Theorem drawing_of_resolved_radius (r hw hh vw vh : Q) :
  generateRoundedRectDrawing hw hh (determineBorderRadius (Some r) hw hh vw vh)
  = generateRoundedRectDrawing hw hh r.
Proof.
  change (determineBorderRadius (Some r) hw hh vw vh) with (drawnRadius hw hh r).
  unfold generateRoundedRectDrawing. now rewrite drawnRadius_idem.
Qed.

End RadiusAndDrawing.

(** ** Timing pass and parsing *)

Section TimingPass.
Local Open Scope Q_scope.

Lemma fixTimingAt_length (subtitles : list Cue.t) (i : nat) :
  length (fixTimingAt subtitles i) = length subtitles.
Proof.
  unfold fixTimingAt. destruct (subtitles !! i); [| reflexivity].
  destruct (subtitles !! (i + 1)%nat); [| reflexivity].
  destruct (smallGap _ _); [apply length_insert | reflexivity].
Qed.

Lemma fixTiming_length (subtitles : list Cue.t) :
  length (fixTiming subtitles) = length subtitles.
Proof.
  unfold fixTiming. generalize (seq 0 (length subtitles - 1)). intros idxs.
  revert subtitles. induction idxs as [| i idxs IH]; intros subtitles.
  - reflexivity.
  - cbn [fold_left]. now rewrite IH, fixTimingAt_length.
Qed.

Lemma set_end_twice (c : Cue.t) (v : Q) :
  Cue.set_end (Cue.set_end c v) v = Cue.set_end c v.
Proof. reflexivity. Qed.

(** X6. Running the timing pass again changes nothing: a pair closed by
    the pass has gap 0 and is closed to the same value, a pair left open is
    left open. *)
Theorem fixTiming_idempotent (subtitles : list Cue.t) :
  fixTiming (fixTiming subtitles) = fixTiming subtitles.
Proof.
  apply list_eq. intros j. rewrite fixTiming_lookup.
  unfold adjusted at 1. rewrite !fixTiming_lookup.
  destruct (adjusted subtitles j) as [c' |] eqn:Hc; [| reflexivity].
  destruct (adjusted subtitles (j + 1)) as [n' |] eqn:Hn; [| reflexivity].
  apply adjusted_start in Hn. destruct Hn as (n & Hn & Hs & _).
  unfold adjusted in Hc. rewrite Hn in Hc.
  destruct (subtitles !! j) as [c |]; [| discriminate].
  unfold smallGap in *. rewrite Hs.
  destruct (JS.lt (JS.sub (JS.double (Cue.start n)) (JS.double (Cue.end_ c)))
              JS.tenth) eqn:Hgap;
    injection Hc as <-.
  - clear Hgap. cbn [Cue.set_end Cue.end_ Cue.start Cue.index Cue.text].
    destruct (JS.lt _ _); reflexivity.
  - now rewrite Hgap.
Qed.

(** X7. The pass keeps the number of cues and, of each cue, the index,
    the start and the text; an end either stays or becomes the start of the
    next cue; the last cue is not touched. *)
Theorem fixTiming_only_moves_ends (subtitles : list Cue.t) :
  length (fixTiming subtitles) = length subtitles
  /\ (forall j after,
        fixTiming subtitles !! j = Some after ->
        exists before,
          subtitles !! j = Some before
          /\ Cue.index after = Cue.index before
          /\ Cue.start after = Cue.start before
          /\ Cue.text after = Cue.text before
          /\ (Cue.end_ after = Cue.end_ before
              \/ exists next, subtitles !! (j + 1)%nat = Some next
                              /\ Cue.end_ after = Cue.start next))
  /\ fixTiming subtitles !! (length subtitles - 1)%nat
     = subtitles !! (length subtitles - 1)%nat.
Proof.
  split; [apply fixTiming_length | split].
  - intros j after. rewrite fixTiming_lookup. unfold adjusted.
    destruct (subtitles !! j) as [c |]; [| discriminate].
    destruct (subtitles !! (j + 1)%nat) as [n |].
    + destruct (smallGap _ _); intros [= <-]; exists c; repeat split;
        [right; exists n; split; reflexivity | now left].
    + intros [= <-]. exists c. repeat split. now left.
  - rewrite fixTiming_lookup. unfold adjusted.
    destruct (subtitles !! (length subtitles - 1)%nat) as [c |]; [| reflexivity].
    rewrite (proj2 (lookup_ge_None subtitles (length subtitles - 1 + 1)));
      [reflexivity | lia].
Qed.

Lemma fixTiming_only_moves_ends_witness :
  exists before,
    imap toInternal exampleParsed !! 0%nat = Some before
    /\ Cue.start (Cue.mk 1 (0 / 1000) (1050 / 1000) (Text.lit "Hi"))
       = Cue.start before.
Proof.
  assert (Hrun : fixTiming (imap toInternal exampleParsed) !! 0%nat
                 = Some (Cue.mk 1 (0 / 1000) (1050 / 1000) (Text.lit "Hi")))
    by (vm_compute; reflexivity).
  destruct (proj1 (proj2 (fixTiming_only_moves_ends
                            (imap toInternal exampleParsed)))
              0%nat (Cue.mk 1 (0 / 1000) (1050 / 1000) (Text.lit "Hi")) Hrun)
    as (before & Hb & _ & Hs & _).
  exists before. split; assumption.
Defined.

(** X8. After the pass no cue ends after the next one starts.  When the
    cues come in order of their starts and none ends before it starts, no
    cue ends before it starts after the pass either. *)
Theorem fixTiming_no_overlap (subtitles : list Cue.t) :
  (forall j current next,
      fixTiming subtitles !! j = Some current ->
      fixTiming subtitles !! (j + 1)%nat = Some next ->
      Cue.end_ current <= Cue.start next)
  /\ ((forall j current next,
          subtitles !! j = Some current ->
          subtitles !! (j + 1)%nat = Some next ->
          Cue.start current <= Cue.start next) ->
      (forall j current,
          subtitles !! j = Some current ->
          Cue.start current <= Cue.end_ current) ->
      forall j current,
        fixTiming subtitles !! j = Some current ->
        Cue.start current <= Cue.end_ current).
Proof.
  split.
  - intros j current next Hc Hn. rewrite fixTiming_lookup in Hc, Hn.
    apply adjusted_start in Hn. destruct Hn as (n & Hn & Hs & _).
    unfold adjusted in Hc. rewrite Hn in Hc.
    destruct (subtitles !! j) as [c |]; [| discriminate].
    rewrite Hs.
    destruct (smallGap c n) eqn:Hgap; injection Hc as <-.
    + cbn. lra.
    + destruct (Qlt_le_dec (Cue.start n) (Cue.end_ c)) as [Hover | Hok];
        [| exact Hok].
      rewrite (smallGap_overlap c n Hover) in Hgap. discriminate.
  - intros Hsorted Hwf j current. rewrite fixTiming_lookup. unfold adjusted.
    destruct (subtitles !! j) as [c |] eqn:Hc; [| discriminate].
    destruct (subtitles !! (j + 1)%nat) as [n |] eqn:Hn.
    + destruct (smallGap _ _); intros [= <-].
      * cbn. now apply (Hsorted j).
      * now apply (Hwf j).
    + intros [= <-]. now apply (Hwf j).
Qed.

Lemma fixTiming_no_overlap_witness :
  ((105 # 100 : Q) <= 105 # 100)
  /\ (0 : Q) <= 105 # 100.
Proof.
  pose (cues := [Cue.mk 1 0 (12 # 10) (Text.lit "Hi");
                 Cue.mk 2 (105 # 100) 2 (Text.lit "Bye")]).
  split.
  - apply (proj1 (fixTiming_no_overlap cues)
             0%nat (Cue.mk 1 0 (105 # 100) (Text.lit "Hi"))
             (Cue.mk 2 (105 # 100) 2 (Text.lit "Bye")));
      vm_compute; reflexivity.
  - apply (proj2 (fixTiming_no_overlap cues)) with
      (j := 0%nat) (current := Cue.mk 1 0 (105 # 100) (Text.lit "Hi")).
    + intros [| [| j]] current next; cbn; try discriminate.
      intros [= <-] [= <-]. cbn. discriminate.
    + intros [| [| j]] current; cbn; try discriminate;
        intros [= <-]; cbn; discriminate.
    + vm_compute. reflexivity.
Defined.

End TimingPass.

(** ** Parsed cues *)

Section ParsedCues.
Local Open Scope Q_scope.

Lemma escape_cons (c : N) (rest : jsstring) :
  Text.replaceAll Text.matchNewline (Text.lit "\N") (c :: rest)
  = if (c =? Text.newline)%N
    then Text.backslash :: Text.capitalN
           :: Text.replaceAll Text.matchNewline (Text.lit "\N") rest
    else c :: Text.replaceAll Text.matchNewline (Text.lit "\N") rest.
Proof.
  unfold Text.replaceAll. cbn [Text.replaceAllFrom Text.matchNewline].
  destruct (c =? Text.newline)%N; reflexivity.
Qed.

Lemma escape_no_newline (s : jsstring) :
  ~ In Text.newline (Text.replaceAll Text.matchNewline (Text.lit "\N") s).
Proof.
  induction s as [| c rest IH]; [intros [] |].
  rewrite escape_cons. destruct (N.eqb_spec c Text.newline) as [-> | Hc].
  - intros [H | [H | H]]; [discriminate | discriminate | contradiction].
  - intros [H | H]; [congruence | contradiction].
Qed.

Lemma countBreaks_skip (c : N) (r : jsstring) :
  c <> Text.backslash -> countBreaks (c :: r) = countBreaks r.
Proof.
  intros Hc. destruct r as [| b r]; [reflexivity |].
  rewrite countBreaks_cons2.
  destruct (N.eqb_spec c Text.backslash); [contradiction | reflexivity].
Qed.

Lemma countNewlines_cons (c : N) (r : jsstring) :
  countNewlines (c :: r)
  = ((if (c =? Text.newline)%N then 1 else 0) + countNewlines r)%nat.
Proof.
  unfold countNewlines. cbn [List.filter].
  destruct (c =? Text.newline)%N; reflexivity.
Qed.

Lemma countBreaks_escape_after (s : jsstring) :
  forall a,
    countBreaks (a :: Text.replaceAll Text.matchNewline (Text.lit "\N") s)
    = (countBreaks (a :: s) + countNewlines s)%nat.
Proof.
  induction s as [| d r IH]; intros a; [reflexivity |].
  rewrite escape_cons, countNewlines_cons.
  destruct (N.eqb_spec d Text.newline) as [-> | Hd].
  - rewrite !countBreaks_cons2, IH.
    rewrite (countBreaks_skip Text.capitalN) by discriminate.
    rewrite (countBreaks_skip Text.newline) by discriminate.
    change ((Text.backslash =? Text.backslash)%N
            && (Text.capitalN =? Text.capitalN)%N) with true.
    replace ((a =? Text.backslash)%N && (Text.backslash =? Text.capitalN)%N)
      with false by (now rewrite andb_false_r).
    replace ((a =? Text.backslash)%N && (Text.newline =? Text.capitalN)%N)
      with false by (now rewrite andb_false_r).
    lia.
  - rewrite !countBreaks_cons2, IH. lia.
Qed.

(** Escaping the line feeds adds one forced line break per line feed to
    those the text already had. *)
Lemma countBreaks_escape (s : jsstring) :
  countBreaks (Text.replaceAll Text.matchNewline (Text.lit "\N") s)
  = (countBreaks s + countNewlines s)%nat.
Proof.
  destruct s as [| d r]; [reflexivity |].
  rewrite escape_cons, countNewlines_cons.
  destruct (N.eqb_spec d Text.newline) as [-> | Hd].
  - rewrite countBreaks_cons2, countBreaks_escape_after.
    rewrite (countBreaks_skip Text.capitalN) by discriminate.
    rewrite (countBreaks_skip Text.newline) by discriminate.
    cbn. lia.
  - apply countBreaks_escape_after.
Qed.

(** X9. [parseSubtitles] returns one cue per entry of the parser, in
    order, none exactly when there is no entry.  The cue at position [i] has
    index [i + 1], the entry's start in seconds, and the entry's text with
    every line feed replaced by the escape [\N]; no line feed is left in
    it. *)
Theorem parseSubtitles_entries (parsedSubtitles : list ParsedCue) :
  length (parseSubtitles parsedSubtitles) = length parsedSubtitles
  /\ (parseSubtitles parsedSubtitles = [] <-> parsedSubtitles = [])
  /\ (forall i sub,
        parsedSubtitles !! i = Some sub ->
        exists c,
          parseSubtitles parsedSubtitles !! i = Some c
          /\ Cue.index c = (i + 1)%nat
          /\ Cue.start c = p_start sub / 1000
          /\ Cue.text c
             = Text.replaceAll Text.matchNewline (Text.lit "\N") (p_text sub)
          /\ ~ In Text.newline (Cue.text c)).
Proof.
  assert (Hlen : length (parseSubtitles parsedSubtitles) = length parsedSubtitles).
  { unfold parseSubtitles. now rewrite fixTiming_length, length_imap. }
  split; [exact Hlen | split].
  - split; intros H.
    + rewrite H in Hlen. now destruct parsedSubtitles.
    + now subst.
  - intros i sub Hsub. unfold parseSubtitles.
    assert (Hi : imap toInternal parsedSubtitles !! i = Some (toInternal i sub)).
    { rewrite list_lookup_imap, Hsub. reflexivity. }
    destruct (adjusted (imap toInternal parsedSubtitles) i) as [c |] eqn:Hc.
    + exists c. rewrite fixTiming_lookup. split; [exact Hc |].
      apply adjusted_start in Hc. destruct Hc as (c0 & Hc0 & Hs & Ht & Hx).
      rewrite Hi in Hc0. injection Hc0 as <-.
      rewrite Hs, Ht, Hx. repeat split. apply escape_no_newline.
    + unfold adjusted in Hc. rewrite Hi in Hc.
      destruct (imap toInternal parsedSubtitles !! (i + 1)%nat); discriminate.
Qed.

Lemma parseSubtitles_entries_witness :
  exists c,
    parseSubtitles exampleParsed !! 1%nat = Some c
    /\ Cue.index c = 2%nat
    /\ Cue.start c = 1050 / 1000.
Proof.
  destruct (proj2 (proj2 (parseSubtitles_entries exampleParsed)) 1%nat
              {| p_start := 1050; p_end := 2000; p_text := Text.lit "Bye" |}
              eq_refl)
    as (c & Hc & Hi & Hs & _).
  exists c. repeat split; assumption.
Defined.

(** X10. The height estimated for a parsed cue counts one line per line
    feed of the entry's text, one per escape [\N] the text already held, and
    one more. *)
Theorem parsed_cue_height (i : nat) (sub : ParsedCue) (fontName : string)
    (fontSize videoWidth : Q) :
  height (calculateTextDimensions (Cue.text (toInternal i sub)) fontName
            fontSize videoWidth)
  == fontSize * (12 # 10)
     * ofNat (countNewlines (p_text sub) + countBreaks (p_text sub) + 1).
Proof.
  cbn [calculateTextDimensions height toInternal Cue.text].
  unfold Text.countAll. rewrite (proj1 (countAllFrom_breaks _)).
  rewrite countBreaks_escape.
  replace (countBreaks (p_text sub) + countNewlines (p_text sub) + 1)%nat
    with (countNewlines (p_text sub) + countBreaks (p_text sub) + 1)%nat by lia.
  reflexivity.
Qed.

End ParsedCues.

(** ** The document as a whole *)

Section WholeDocument.
Local Open Scope Q_scope.

Lemma existsb_join (f : N -> bool) (texts : list jsstring) :
  f Text.space = false ->
  existsb f (Text.join [Text.space] texts) = existsb (existsb f) texts.
Proof.
  intros Hsp. induction texts as [| t rest IH]; [reflexivity |].
  cbn [Text.join existsb]. destruct rest as [| t' rest'].
  - cbn [existsb]. now rewrite orb_false_r.
  - rewrite !existsb_app, IH. cbn [existsb]. now rewrite Hsp.
Qed.

Lemma existsb_texts_true (f : N -> bool) (texts : list jsstring) :
  existsb (existsb f) texts = true <->
  exists t, In t texts /\ existsb f t = true.
Proof. apply existsb_exists. Qed.

Lemma existsb_texts_false (f : N -> bool) (texts : list jsstring) (t : jsstring) :
  existsb (existsb f) texts = false -> In t texts -> existsb f t = false.
Proof.
  intros H Hin. destruct (existsb f t) eqn:E; [| reflexivity].
  rewrite <- H. symmetry. apply existsb_exists. now exists t.
Qed.

Lemma detectScript_join (texts : list jsstring) :
  detectScript (Text.join [Text.space] texts)
  = if existsb (existsb isCjkUnit) texts then cjk
    else if existsb (existsb isArabicUnit) texts then arabic
    else if existsb (existsb isHebrewUnit) texts then hebrew
    else latin.
Proof. unfold detectScript. now rewrite !existsb_join by reflexivity. Qed.

Lemma createRoundedAss_language subtitles probe measurement win32 options doc :
  createRoundedAss subtitles probe measurement win32 options = inr doc ->
  subtitles <> []
  /\ doc_language doc = detectScript (Text.join [Text.space] (map Cue.text subtitles))
  /\ doc_fontName doc
     = chooseFont options (resolveConfig options) win32 (doc_language doc)
  /\ doc_fontSize doc
     = JS.or_else (Some (Config.fontSize (Config.resolve options)))
         (inject_Z (Qfloor (videoHeight (doc_canvas doc) / 20))).
Proof.
  unfold createRoundedAss. destruct subtitles as [| sub rest]; [discriminate |].
  intros [= <-]. repeat split. discriminate.
Qed.

(** X11. The language of the document is the script, among those detected
    on its cues, that the detector tests first: some cue has that script and
    no cue has one tested earlier. *)
Theorem document_language_is_first_ranked subtitles probe measurement win32
    options doc :
  createRoundedAss subtitles probe measurement win32 options = inr doc ->
  (exists sub, In sub subtitles /\ detectScript (Cue.text sub) = doc_language doc)
  /\ (forall sub, In sub subtitles ->
        (scriptRank (doc_language doc) <= scriptRank (detectScript (Cue.text sub)))%nat).
Proof.
  intros Hdoc.
  destruct (createRoundedAss_language _ _ _ _ _ _ Hdoc) as (Hne & -> & _).
  set (texts := map Cue.text subtitles).
  assert (Hin : forall sub, In sub subtitles -> In (Cue.text sub) texts)
    by (intros sub; apply in_map).
  rewrite detectScript_join.
  destruct (existsb (existsb isCjkUnit) texts) eqn:Ec.
  { split.
    - apply existsb_texts_true in Ec. destruct Ec as (t & Ht & Et).
      apply in_map_iff in Ht. destruct Ht as (sub & <- & Hsub).
      exists sub. split; [exact Hsub |]. unfold detectScript. now rewrite Et.
    - intros sub _. cbn. lia. }
  destruct (existsb (existsb isArabicUnit) texts) eqn:Ea.
  { split.
    - apply existsb_texts_true in Ea. destruct Ea as (t & Ht & Et).
      pose proof (existsb_texts_false _ _ _ Ec Ht) as Ect.
      apply in_map_iff in Ht. destruct Ht as (sub & <- & Hsub).
      exists sub. split; [exact Hsub |]. unfold detectScript. now rewrite Ect, Et.
    - intros sub Hsub. unfold detectScript.
      rewrite (existsb_texts_false _ _ _ Ec (Hin _ Hsub)).
      destruct (existsb isArabicUnit _); [cbn; lia |].
      destruct (existsb isHebrewUnit _); cbn; lia. }
  destruct (existsb (existsb isHebrewUnit) texts) eqn:Eh.
  { split.
    - apply existsb_texts_true in Eh. destruct Eh as (t & Ht & Et).
      pose proof (existsb_texts_false _ _ _ Ec Ht) as Ect.
      pose proof (existsb_texts_false _ _ _ Ea Ht) as Eat.
      apply in_map_iff in Ht. destruct Ht as (sub & <- & Hsub).
      exists sub. split; [exact Hsub |].
      unfold detectScript. now rewrite Ect, Eat, Et.
    - intros sub Hsub. unfold detectScript.
      rewrite (existsb_texts_false _ _ _ Ec (Hin _ Hsub)).
      rewrite (existsb_texts_false _ _ _ Ea (Hin _ Hsub)).
      destruct (existsb isHebrewUnit _); cbn; lia. }
  split.
  - destruct subtitles as [| sub rest]; [contradiction |].
    exists sub. split; [now left |]. unfold detectScript.
    rewrite (existsb_texts_false _ _ _ Ec (Hin _ (or_introl eq_refl))).
    rewrite (existsb_texts_false _ _ _ Ea (Hin _ (or_introl eq_refl))).
    now rewrite (existsb_texts_false _ _ _ Eh (Hin _ (or_introl eq_refl))).
  - intros sub Hsub. unfold detectScript.
    rewrite (existsb_texts_false _ _ _ Ec (Hin _ Hsub)).
    rewrite (existsb_texts_false _ _ _ Ea (Hin _ Hsub)).
    now rewrite (existsb_texts_false _ _ _ Eh (Hin _ Hsub)).
Qed.

Lemma document_language_is_first_ranked_witness :
  exists doc,
    createRoundedAss mixedCues None None false noOptions = inr doc
    /\ (exists sub, In sub mixedCues
                    /\ detectScript (Cue.text sub) = doc_language doc).
Proof.
  eexists. split; [reflexivity |].
  apply (proj1 (document_language_is_first_ranked mixedCues None None false
                  noOptions _ eq_refl)).
Defined.

(** X12. A font the caller names is the font of the document, whatever
    the script and the platform; with no font named and a Latin document the
    font is Arial.  The font size is the caller's, or 48 when it is left out
    or 0: the height of the canvas never enters it. *)
Theorem document_font subtitles probe measurement win32 options doc :
  createRoundedAss subtitles probe measurement win32 options = inr doc ->
  (forall f, opt_font options = Some f -> f <> ""%string -> doc_fontName doc = f)
  /\ (opt_font options = None -> doc_language doc = latin ->
      doc_fontName doc = "Arial"%string)
  /\ doc_fontSize doc = JS.or_else (opt_fontSize options) 48
  /\ ~ doc_fontSize doc == 0.
Proof.
  intros Hdoc.
  destruct (createRoundedAss_language _ _ _ _ _ _ Hdoc) as (_ & _ & -> & ->).
  assert (Hnz : ~ JS.or_else (opt_fontSize options) 48 == 0)
    by (apply or_else_nonzero; discriminate).
  assert (Hsize : JS.or_else (Some (Config.fontSize (Config.resolve options)))
                    (inject_Z (Qfloor (videoHeight (doc_canvas doc) / 20)))
                  = JS.or_else (opt_fontSize options) 48).
  { cbn [Config.resolve Config.fontSize]. unfold JS.or_else at 1, JS.truthy.
    destruct (Qeq_bool (JS.or_else (opt_fontSize options) 48) 0) eqn:E;
      [| reflexivity].
    apply Qeq_bool_iff in E. contradiction. }
  split; [| split; [| split]].
  - intros f Hf Hne. unfold chooseFont, resolveConfig.
    cbn [extendConfig fontName Config.resolve Config.font]. rewrite Hf.
    destruct f; [contradiction | reflexivity].
  - intros Hf Hlat. unfold chooseFont, resolveConfig.
    cbn [extendConfig fontName Config.resolve Config.font].
    rewrite Hf, Hlat. reflexivity.
  - exact Hsize.
  - now rewrite Hsize.
Qed.

Lemma document_font_witness :
  (exists doc,
      createRoundedAss mixedCues None None false (withFont "Noto Serif") = inr doc
      /\ doc_fontName doc = "Noto Serif"%string)
  /\ (exists doc,
        createRoundedAss exampleCues None None false noOptions = inr doc
        /\ doc_fontName doc = "Arial"%string).
Proof.
  split.
  - eexists. split; [reflexivity |].
    apply (proj1 (document_font mixedCues None None false
                    (withFont "Noto Serif") _ eq_refl));
      [reflexivity | discriminate].
  - eexists. split; [reflexivity |].
    apply (proj1 (proj2 (document_font exampleCues None None false noOptions _
                           eq_refl))); reflexivity.
Defined.

Lemma concat_pairs_length {A B : Type} (f : nat -> A -> list B) (l : list A) :
  (forall i x, length (f i x) = 2%nat) ->
  length (concat (imap f l)) = (2 * length l)%nat.
Proof.
  revert f. induction l as [| y l IH]; intros f Hlen; [reflexivity |].
  cbn [imap concat]. rewrite length_app, Hlen, (IH (f ∘ S)).
  - cbn [length]. lia.
  - intros. apply Hlen.
Qed.

(** X13. The call fails, with the error that no subtitles were found,
    exactly when there is no cue.  Otherwise there are two events per cue:
    at [2 * idx] the background of the cue at [idx] and right after it the
    text, both stamped with the formatted start and end of that cue and
    both placed at the horizontal centre of the canvas. *)
Theorem document_events subtitles probe measurement win32 options :
  (createRoundedAss subtitles probe measurement win32 options
   = inl NoSubtitlesFound <-> subtitles = [])
  /\ (forall doc,
        createRoundedAss subtitles probe measurement win32 options = inr doc ->
        length (doc_events doc) = (2 * length subtitles)%nat
        /\ forall idx sub,
             subtitles !! idx = Some sub ->
             exists bg tx,
               doc_events doc !! (2 * idx)%nat = Some (Background bg)
               /\ doc_events doc !! (2 * idx + 1)%nat = Some (Dialogue tx)
               /\ bg_start bg = formatAssTime (Cue.start sub)
               /\ bg_end bg = formatAssTime (Cue.end_ sub)
               /\ tx_start tx = formatAssTime (Cue.start sub)
               /\ tx_end tx = formatAssTime (Cue.end_ sub)
               /\ bg_posX bg = videoWidth (doc_canvas doc) / 2
               /\ tx_posX tx = videoWidth (doc_canvas doc) / 2).
Proof.
  split.
  - unfold createRoundedAss. destruct subtitles; split; intros H;
      try reflexivity; discriminate.
  - intros doc Hdoc.
    destruct (createRoundedAss_inr _ _ _ _ _ _ Hdoc) as (_ & _ & ->).
    set (f := cueEvents _ _ _ _ _ _ _).
    assert (Hlen : forall i x, length (f i x) = 2%nat) by reflexivity.
    split; [now apply concat_pairs_length |].
    intros idx sub Hsub.
    pose proof (concat_pairs_lookup f subtitles Hlen idx 0 sub
                  ltac:(lia) Hsub) as H0.
    pose proof (concat_pairs_lookup f subtitles Hlen idx 1 sub
                  ltac:(lia) Hsub) as H1.
    rewrite Nat.add_0_r in H0.
    subst f. cbn [cueEvents lookup list_lookup] in H0, H1.
    eexists. eexists. split; [exact H0 |]. split; [exact H1 |].
    repeat split.
Qed.

Lemma document_events_witness :
  createRoundedAss [] None None false noOptions = inl NoSubtitlesFound
  /\ exists doc,
       createRoundedAss exampleCues None None false noOptions = inr doc
       /\ length (doc_events doc) = (2 * length exampleCues)%nat.
Proof.
  split.
  - apply (proj1 (document_events [] None None false noOptions)). reflexivity.
  - eexists. split; [reflexivity |].
    apply (proj2 (document_events exampleCues None None false noOptions) _
             eq_refl).
Defined.

(** X14. The answer of the measurer is used only for the cues it covers:
    a cue beyond its last line gets the estimate, so an empty answer gives
    the document that no answer gives; and with [useAssMeasure] set to false
    the answer is not looked at. *)
Theorem measurement_fallback subtitles probe win32 options :
  createRoundedAss subtitles probe (Some []) win32 options
  = createRoundedAss subtitles probe None win32 options
  /\ (forall dims fontName fontSize canvas idx sub,
        (length dims <= idx)%nat ->
        cueTextMetrics (Some dims) fontName fontSize canvas idx sub
        = calculateTextDimensions (Cue.text sub) fontName fontSize
            (videoWidth canvas))
  /\ (opt_useAssMeasure options = Some false ->
      forall m1 m2,
        createRoundedAss subtitles probe m1 win32 options
        = createRoundedAss subtitles probe m2 win32 options).
Proof.
  split; [| split].
  - unfold createRoundedAss. destruct subtitles as [| sub rest]; [reflexivity |].
    do 2 f_equal. f_equal. apply imap_ext. intros idx c _.
    destruct (useAssMeasure _); reflexivity.
  - intros dims fontName fontSize canvas idx sub Hlen. unfold cueTextMetrics.
    now rewrite (proj2 (lookup_ge_None dims idx) Hlen).
  - intros Hoff m1 m2. unfold createRoundedAss.
    destruct subtitles as [| sub rest]; [reflexivity |].
    cbn [extendConfig useAssMeasure]. rewrite Hoff. reflexivity.
Qed.

Lemma measurement_fallback_witness :
  cueTextMetrics (Some [ {| width := 50; height := 30 |} ]) "Arial" 48
    defaultCanvas 1 (Cue.mk 2 2 3 (Text.lit "Bye"))
  = calculateTextDimensions (Text.lit "Bye") "Arial" 48 1920
  /\ createRoundedAss exampleCues None
       (Some [ {| width := 50; height := 30 |} ]) false measureOff
     = createRoundedAss exampleCues None None false measureOff.
Proof.
  split.
  - apply (proj1 (proj2 (measurement_fallback [] None false noOptions))).
    cbn. lia.
  - apply (proj2 (proj2 (measurement_fallback exampleCues None false
                           measureOff))).
    reflexivity.
Defined.

End WholeDocument.

(** ** Printed fields *)

Section PrintedFields.
Local Open Scope Q_scope.

Lemma Qfloor_unique (x : Q) (n : Z) :
  inject_Z n <= x -> x < inject_Z n + 1 -> Qfloor x = n.
Proof.
  intros Hlo Hhi.
  pose proof (Qfloor_le x) as Hfl. pose proof (Qlt_floor x) as Hfu.
  rewrite inject_Z_plus in Hfu. change (inject_Z 1) with 1 in Hfu.
  assert (H1 : (n < Qfloor x + 1)%Z).
  { rewrite Zlt_Qlt, inject_Z_plus. change (inject_Z 1) with 1. lra. }
  assert (H2 : (Qfloor x < n + 1)%Z).
  { rewrite Zlt_Qlt, inject_Z_plus. change (inject_Z 1) with 1. lra. }
  lia.
Qed.

Lemma trunc_nonneg (x : Q) : 0 <= x -> JS.trunc x = Qfloor x.
Proof.
  intros Hx. unfold JS.trunc.
  destruct (JS.lt x 0) eqn:E; [| reflexivity].
  apply lt_true_iff in E. lra.
Qed.

Lemma rem_nonneg (x m : Q) :
  0 <= x -> 0 < m -> JS.rem x m == x - m * inject_Z (Qfloor (x / m)).
Proof.
  intros Hx Hm. unfold JS.rem. rewrite trunc_nonneg; [reflexivity |].
  apply Qle_shift_div_l; lra.
Qed.

(** X15. For a time that is not negative the three parts printed add up
    to the time: [hours * 3600 + minutes * 60 + secs], with hours not
    negative, minutes from 0 to 59 and [secs] from 0 up to but not
    including 60. *)
Theorem formatAssTime_parts (seconds : Q) :
  0 <= seconds ->
  inject_Z (hoursOf seconds) * 3600 + inject_Z (minutesOf seconds) * 60
    + secsOf seconds == seconds
  /\ (0 <= hoursOf seconds)%Z
  /\ (0 <= minutesOf seconds < 60)%Z
  /\ 0 <= secsOf seconds < 60.
Proof.
  intros Hs.
  pose proof (minutesOf_range seconds Hs) as Hmin.
  pose proof (rem_range seconds 60 Hs ltac:(reflexivity)) as Hsec.
  assert (Hh : (0 <= hoursOf seconds)%Z).
  { unfold hoursOf. change 0%Z with (Qfloor 0). apply Qfloor_resp_le.
    apply Qle_shift_div_l; [reflexivity | lra]. }
  split; [| now repeat split].
  unfold secsOf. rewrite (rem_nonneg seconds 60 Hs ltac:(reflexivity)).
  assert (Hfl : Qfloor (seconds / 60)
                = (60 * hoursOf seconds + minutesOf seconds)%Z).
  { unfold minutesOf, hoursOf.
    pose proof (rem_nonneg seconds 3600 Hs ltac:(reflexivity)) as Hr.
    set (h := Qfloor (seconds / 3600)) in *.
    set (r := JS.rem seconds 3600) in *.
    pose proof (Qfloor_le (r / 60)) as Hlo.
    pose proof (Qlt_floor (r / 60)) as Hhi.
    rewrite inject_Z_plus in Hhi. change (inject_Z 1) with 1 in Hhi.
    set (m := Qfloor (r / 60)) in *.
    assert (Er : r / 60 == seconds / 60 - 60 * inject_Z h).
    { rewrite Hr. field. }
    apply Qfloor_unique; rewrite inject_Z_plus, inject_Z_mult;
      change (inject_Z 60) with 60; lra. }
  rewrite Hfl, inject_Z_plus, inject_Z_mult. change (inject_Z 60) with 60.
  ring.
Qed.

Lemma formatAssTime_parts_witness :
  inject_Z (hoursOf 3725) * 3600 + inject_Z (minutesOf 3725) * 60
    + secsOf 3725 == 3725.
Proof.
  apply (proj1 (formatAssTime_parts 3725 ltac:(discriminate))).
Defined.

Lemma checked_below (ok : nat -> bool) (bound : nat) :
  forallb ok (seq 0 bound) = true ->
  forall n, (n < bound)%nat -> ok n = true.
Proof.
  intros Hall n Hn. rewrite forallb_forall in Hall.
  apply Hall. apply in_seq. lia.
Qed.

Lemma minutes_fields : forallb minutesFieldOk (seq 0 60) = true.
Proof. vm_compute. reflexivity. Qed.

Lemma seconds_fields :
  forallb secondsFieldOk (seq 0 (Z.to_nat 6001)) = true.
Proof. vm_compute. reflexivity. Qed.

Lemma alpha_fields : forallb alphaFieldOk (seq 0 256) = true.
Proof. vm_compute. reflexivity. Qed.

Lemma toFixed2_nonneg (x : Q) :
  0 <= x -> JS.toFixed2 x = fixedDigits (JS.hundredths x).
Proof.
  intros Hx. unfold JS.toFixed2, fixedDigits.
  destruct (JS.lt x 0) eqn:E; [apply lt_true_iff in E; lra | reflexivity].
Qed.

(** X16. For a time that is not negative the timestamp is the hours, a
    colon, a minutes field of exactly two characters, a colon and a seconds
    field of exactly five characters with the point in the middle. *)
Theorem formatAssTime_fields (seconds : Q) :
  0 <= seconds ->
  exists mm ss,
    formatAssTime seconds
    = (JS.intToString (hoursOf seconds) ++ ":" ++ mm ++ ":" ++ ss)%string
    /\ String.length mm = 2%nat
    /\ String.length ss = 5%nat
    /\ String.get 2 ss = Some "."%char.
Proof.
  intros Hs.
  exists (JS.padStart0 2 (JS.intToString (minutesOf seconds))).
  exists (JS.padStart0 5 (JS.toFixed2 (secsOf seconds))).
  split; [reflexivity |].
  pose proof (minutesOf_range seconds Hs) as Hmin.
  destruct (centisecondsOf_range seconds Hs) as [Hcs _].
  pose proof (rem_range seconds 60 Hs ltac:(reflexivity)) as [Hsec _].
  fold (secsOf seconds) in Hsec.
  rewrite (toFixed2_nonneg _ Hsec). fold (centisecondsOf seconds).
  pose proof (checked_below _ _ minutes_fields
                (Z.to_nat (minutesOf seconds)) ltac:(lia)) as Hm.
  pose proof (checked_below _ _ seconds_fields
                (Z.to_nat (centisecondsOf seconds)) ltac:(lia)) as Hc.
  unfold minutesFieldOk in Hm. unfold secondsFieldOk in Hc.
  rewrite Z2Nat.id in Hm, Hc by lia.
  apply Nat.eqb_eq in Hm. apply andb_true_iff in Hc. destruct Hc as [Hc1 Hc2].
  apply Nat.eqb_eq in Hc1.
  split; [exact Hm | split; [exact Hc1 |]].
  destruct (String.get 2 _) as [c |]; [| discriminate].
  apply Ascii.eqb_eq in Hc2. now subst.
Qed.

Lemma formatAssTime_fields_witness :
  exists mm ss,
    formatAssTime (59999 # 1000)
    = (JS.intToString (hoursOf (59999 # 1000)) ++ ":" ++ mm ++ ":" ++ ss)%string
    /\ String.length mm = 2%nat
    /\ String.length ss = 5%nat
    /\ String.get 2 ss = Some "."%char.
Proof.
  apply (formatAssTime_fields (59999 # 1000)). discriminate.
Defined.

(** X17. An alpha from 0 to 255 is written as exactly two hexadecimal
    digits that read back as the alpha. *)
Theorem alpha_hex_field (alpha : Z) :
  (0 <= alpha <= 255)%Z ->
  String.length (JS.padStart0 2 (JS.intToHex alpha)) = 2%nat
  /\ decodeHex (JS.padStart0 2 (JS.intToHex alpha)) = Some (Z.to_N alpha).
Proof.
  intros Ha.
  pose proof (checked_below _ _ alpha_fields (Z.to_nat alpha) ltac:(lia)) as H.
  unfold alphaFieldOk in H. rewrite Z2Nat.id in H by lia.
  apply andb_true_iff in H. destruct H as [H1 H2].
  apply Nat.eqb_eq in H1. split; [exact H1 |].
  destruct (decodeHex _) as [v |]; [| discriminate].
  apply N.eqb_eq in H2. subst v. f_equal. lia.
Qed.

Lemma alpha_hex_field_witness :
  String.length (JS.padStart0 2 (JS.intToHex 80)) = 2%nat
  /\ decodeHex (JS.padStart0 2 (JS.intToHex 80)) = Some (Z.to_N 80).
Proof. apply (alpha_hex_field 80). lia. Defined.

End PrintedFields.

(** ** Box width and estimates *)

Section WidthsAndEstimates.
Local Open Scope Q_scope.

(** X18. The box of a cue is never wider than the maximum ratio of the
    canvas allows, even when the minimum width is enabled and larger; with
    the minimum width disabled it is never wider than 0.98 of the canvas;
    and a wider text never gives a narrower box. *)
Theorem box_width_bounds (ext : ExtendedConfig) (canvas : CanvasSize) :
  (forall tw, cueBoxWidth ext canvas tw <= videoWidth canvas * maxWidthRatio ext)
  /\ (disableMinWidth ext = true ->
      forall tw, cueBoxWidth ext canvas tw <= videoWidth canvas * (98 # 100))
  /\ (forall tw tw',
        tw <= tw' -> cueBoxWidth ext canvas tw <= cueBoxWidth ext canvas tw').
Proof.
  split; [| split].
  - intros tw. unfold cueBoxWidth. apply Q.le_min_r.
  - intros Hd tw. unfold cueBoxWidth. rewrite Hd. cbn [negb].
    eapply Qle_trans; [apply Q.le_min_l | apply Q.le_min_r].
  - intros tw tw' Hle. unfold cueBoxWidth, paddedWidth.
    set (mx := videoWidth canvas * maxWidthRatio ext).
    set (mn := videoWidth canvas * minWidthRatio ext).
    set (c := videoWidth canvas * (98 # 100)).
    set (p := paddingH ext * 2).
    clearbody mx mn c p.
    destruct (Qeq_bool (paddingH ext) 0), (disableMinWidth ext); cbn [negb];
      minmax_lra.
Qed.

Lemma box_width_bounds_witness :
  cueBoxWidth tightConfig defaultCanvas 5000 <= videoWidth defaultCanvas * (98 # 100)
  /\ cueBoxWidth tightConfig defaultCanvas 50
     <= cueBoxWidth tightConfig defaultCanvas 60.
Proof.
  split.
  - apply (proj1 (proj2 (box_width_bounds tightConfig defaultCanvas))).
    reflexivity.
  - apply (proj2 (proj2 (box_width_bounds tightConfig defaultCanvas))).
    discriminate.
Defined.

(** X19. With the width options left out and a canvas of non-negative
    width, the box of a cue is its text plus twice the resolved padding,
    capped at 0.98 of the canvas width: the maximum ratio 1 never applies. *)
Theorem default_box_width (options : Options) (canvas : CanvasSize) (tw : Q) :
  opt_maxWidthRatio options = None ->
  opt_disableMinWidth options = None ->
  0 <= videoWidth canvas ->
  cueBoxWidth (resolveConfig options) canvas tw
  == Qmin (tw + 2 * paddingH (resolveConfig options))
       (videoWidth canvas * (98 # 100)).
Proof.
  intros Hmax Hdis Hvw.
  assert (Hd : disableMinWidth (resolveConfig options) = true)
    by (cbn; now rewrite Hdis).
  assert (Hm : maxWidthRatio (resolveConfig options) = 1)
    by (cbn; now rewrite Hmax).
  assert (Hp : paddedWidth (resolveConfig options) tw
               = tw + paddingH (resolveConfig options) * 2).
  { apply paddedWidth_nonzero. cbn. apply or_else_nonzero. discriminate. }
  unfold cueBoxWidth. rewrite Hd, Hm, Hp. cbn [negb].
  set (p := paddingH (resolveConfig options)). clearbody p.
  set (v := videoWidth canvas) in *. clearbody v.
  minmax_lra.
Qed.

Lemma default_box_width_witness :
  cueBoxWidth (resolveConfig noOptions) defaultCanvas 50
  == Qmin (50 + 2 * paddingH (resolveConfig noOptions))
       (videoWidth defaultCanvas * (98 # 100)).
Proof.
  apply (default_box_width noOptions defaultCanvas 50);
    [reflexivity | reflexivity | discriminate].
Defined.

Lemma stripTags_length (k : nat) (s : jsstring) :
  (length (Text.replaceAllFrom Text.matchTag [] k s) <= length s)%nat.
Proof.
  revert k. induction s as [| c rest IH]; intros k; [reflexivity |].
  cbn [Text.replaceAllFrom]. destruct k as [| k].
  - destruct (Text.matchTag (c :: rest)) as [[| n] |]; cbn [app length].
    + specialize (IH 0%nat). lia.
    + specialize (IH n). lia.
    + specialize (IH 0%nat). lia.
  - cbn [length]. specialize (IH k). lia.
Qed.

Lemma cleanText_length (text : jsstring) :
  (length (cleanText text) <= length text)%nat.
Proof.
  unfold cleanText, Text.replaceAll.
  pose proof (proj1 (replace_breaks_length
                       (Text.replaceAllFrom Text.matchTag [] 0 text))).
  pose proof (stripTags_length 0 text). lia.
Qed.

Lemma ofNat_le (a b : nat) : (a <= b)%nat -> ofNat a <= ofNat b.
Proof. intros H. unfold ofNat. rewrite <- Zle_Qle. lia. Qed.

Lemma ofNat_nonneg (a : nat) : 0 <= ofNat a.
Proof. apply (ofNat_le 0 a). lia. Qed.

(** X20. For a font size and a canvas width that are not negative, the
    estimated width lies between 0 and 0.9 of the canvas width and is at
    most the width of the text with nothing removed; the estimated height
    is at least one line. *)
Theorem estimate_bounds (text : jsstring) (fontName : string)
    (fontSize videoWidth : Q) :
  0 <= fontSize -> 0 <= videoWidth ->
  let estimate := calculateTextDimensions text fontName fontSize videoWidth in
  0 <= width estimate <= videoWidth * (9 # 10)
  /\ width estimate <= ofNat (length text) * (fontSize * (6 # 10))
  /\ fontSize * (12 # 10) <= height estimate.
Proof.
  intros Hf Hv estimate. subst estimate.
  cbn [calculateTextDimensions width height].
  pose proof (ofNat_le _ _ (cleanText_length text)) as Hlen.
  pose proof (ofNat_nonneg (length (cleanText text))) as Hc.
  set (n := ofNat (length (cleanText text))) in *. clearbody n.
  set (N := ofNat (length text)) in *. clearbody N.
  assert (Hl : 1 <= ofNat (Text.countAll Text.matchBreak text + 1)).
  { apply (ofNat_le 1). lia. }
  set (l := ofNat (Text.countAll Text.matchBreak text + 1)) in *. clearbody l.
  set (w := fontSize * (6 # 10)).
  assert (Hw : 0 <= w) by (subst w; lra).
  clearbody w.
  assert (H1 : 0 <= n * w) by (apply Qmult_le_0_compat; assumption).
  assert (H2 : n * w <= N * w).
  { apply Qmult_le_compat_r; assumption. }
  assert (H3 : 0 <= fontSize * (12 # 10) * (l - 1)).
  { apply Qmult_le_0_compat; lra. }
  split; [| split].
  - minmax_lra.
  - minmax_lra.
  - lra.
Qed.

Lemma estimate_bounds_witness :
  0 <= width (calculateTextDimensions (Text.lit "{\an8}Hello") "Arial" 48 1920)
    <= 1920 * (9 # 10).
Proof.
  apply (estimate_bounds (Text.lit "{\an8}Hello") "Arial" 48 1920);
    discriminate.
Defined.

Lemma stripTags_plain (s : jsstring) :
  ~ In Text.openBrace s -> Text.replaceAllFrom Text.matchTag [] 0 s = s.
Proof.
  induction s as [| c rest IH]; intros Hno; [reflexivity |].
  cbn [Text.replaceAllFrom Text.matchTag].
  destruct (N.eqb_spec c Text.openBrace) as [-> | Hc].
  - exfalso. apply Hno. now left.
  - rewrite IH; [reflexivity |]. intros H. apply Hno. now right.
Qed.

Lemma replaceBreaks_plain (s : jsstring) :
  ~ In Text.backslash s ->
  Text.replaceAllFrom Text.matchBreak [Text.space] 0 s = s.
Proof.
  induction s as [| c rest IH]; intros Hno; [reflexivity |].
  cbn [Text.replaceAllFrom].
  destruct (Text.matchBreak (c :: rest)) as [n |] eqn:Hm.
  - apply matchBreak_Some in Hm. destruct Hm as (_ & r & [= -> _]).
    exfalso. apply Hno. now left.
  - rewrite IH; [reflexivity |]. intros H. apply Hno. now right.
Qed.

Lemma countBreaks_plain (s : jsstring) :
  ~ In Text.backslash s -> countBreaks s = 0%nat.
Proof.
  induction s as [| c rest IH]; intros Hno; [reflexivity |].
  rewrite countBreaks_skip.
  - apply IH. intros H. apply Hno. now right.
  - intros ->. apply Hno. now left.
Qed.

(** X21. A text without an opening brace and without a backslash is
    measured as it is: every code unit counts for the width and the height
    is one line. *)
Theorem estimate_plain_text (text : jsstring) (fontName : string)
    (fontSize videoWidth : Q) :
  ~ In Text.openBrace text -> ~ In Text.backslash text ->
  let estimate := calculateTextDimensions text fontName fontSize videoWidth in
  cleanText text = text
  /\ width estimate
     == Qmin (ofNat (length text) * fontSize * (6 # 10)) (videoWidth * (9 # 10))
  /\ height estimate == fontSize * (12 # 10).
Proof.
  intros Hbrace Hslash estimate.
  assert (Hclean : cleanText text = text).
  { unfold cleanText, Text.replaceAll. rewrite (stripTags_plain _ Hbrace).
    now apply replaceBreaks_plain. }
  split; [exact Hclean | split].
  - subst estimate. cbn [calculateTextDimensions width]. rewrite Hclean.
    set (n := ofNat (length text)). clearbody n.
    assert (E : n * (fontSize * (6 # 10)) == n * fontSize * (6 # 10)) by ring.
    set (a := n * (fontSize * (6 # 10))) in *.
    set (b := n * fontSize * (6 # 10)) in *.
    clearbody a b. minmax_lra.
  - subst estimate. cbn [calculateTextDimensions height].
    unfold Text.countAll. rewrite (proj1 (countAllFrom_breaks text)).
    rewrite (countBreaks_plain _ Hslash). change (ofNat (0 + 1)) with 1. ring.
Qed.

Lemma estimate_plain_text_witness : cleanText (Text.lit "Bye") = Text.lit "Bye".
Proof.
  apply (estimate_plain_text (Text.lit "Bye") "Arial" 48 1920).
  - cbn. intros [H | [H | [H | []]]]; discriminate.
  - cbn. intros [H | [H | [H | []]]]; discriminate.
Defined.

Lemma closeTag_missing (s : jsstring) :
  ~ In Text.closeBrace s -> Text.closeTag s = None.
Proof.
  induction s as [| c rest IH]; intros Hno; [reflexivity |].
  cbn [Text.closeTag].
  destruct (N.eqb_spec c Text.closeBrace) as [-> | Hc].
  - exfalso. apply Hno. now left.
  - destruct (Text.isLineTerminator c); [reflexivity |].
    rewrite IH; [reflexivity |]. intros H. apply Hno. now right.
Qed.

Lemma stripTags_unclosed (s : jsstring) :
  ~ In Text.closeBrace s -> Text.replaceAllFrom Text.matchTag [] 0 s = s.
Proof.
  induction s as [| c rest IH]; intros Hno; [reflexivity |].
  assert (Hrest : ~ In Text.closeBrace rest) by (intros H; apply Hno; now right).
  cbn [Text.replaceAllFrom Text.matchTag].
  rewrite (closeTag_missing _ Hrest).
  destruct (c =? Text.openBrace)%N; cbn [option_map]; now rewrite IH.
Qed.

(** X22. A tag span, from an opening brace to the first closing brace
    with no line terminator between them, adds nothing to the cleaned text
    and so nothing to the estimated width; a text without any closing brace
    has no tag span and keeps its braces. *)
Theorem cleanText_tag_span (tag rest : jsstring) :
  (~ In Text.closeBrace tag ->
   (forall c, In c tag -> Text.isLineTerminator c = false) ->
   cleanText (Text.openBrace :: tag ++ Text.closeBrace :: rest) = cleanText rest)
  /\ (~ In Text.closeBrace rest ->
      Text.replaceAll Text.matchTag [] rest = rest).
Proof.
  split.
  - intros Hno Hlt. unfold cleanText, Text.replaceAll. f_equal.
    cbn [Text.replaceAllFrom Text.matchTag].
    change (Text.openBrace =? Text.openBrace)%N with true. cbn iota.
    rewrite (closeTag_found tag rest Hno Hlt). cbn [option_map app].
    replace (tag ++ Text.closeBrace :: rest)
      with ((tag ++ [Text.closeBrace]) ++ rest)
      by (now rewrite <- app_assoc).
    replace (S (length tag)) with (length (tag ++ [Text.closeBrace]))
      by (rewrite length_app; cbn; lia).
    apply replaceAllFrom_skip.
  - apply stripTags_unclosed.
Qed.

Lemma cleanText_tag_span_witness :
  cleanText (Text.openBrace :: Text.lit "\an8" ++ Text.closeBrace :: Text.lit "Hi")
  = cleanText (Text.lit "Hi")
  /\ Text.replaceAll Text.matchTag [] (Text.lit "{Hi") = Text.lit "{Hi".
Proof.
  split.
  - apply (proj1 (cleanText_tag_span (Text.lit "\an8") (Text.lit "Hi"))).
    + cbn. intros [H | [H | [H | [H | []]]]]; discriminate.
    + cbn. intros c [<- | [<- | [<- | [<- | []]]]]; reflexivity.
  - apply (proj2 (cleanText_tag_span [] (Text.lit "{Hi"))).
    cbn. intros [H | [H | [H | []]]]; discriminate.
Defined.

End WidthsAndEstimates.

(** ** Automatic bottom margin *)

Section AutomaticMargin.
Local Open Scope Q_scope.

(** X23. The automatic margin is never below 60, on any canvas; it does
    not shrink when the canvas grows; and from height 1200 on it is
    [floor(h * 0.05)]. *)
Theorem automatic_margin (h : Q) :
  60 <= determineBottomMargin None h
  /\ (forall h', h <= h' ->
        determineBottomMargin None h <= determineBottomMargin None h')
  /\ (1200 <= h -> determineBottomMargin None h == baseMarginOf h).
Proof.
  unfold determineBottomMargin, baseMarginOf.
  split; [| split].
  - change 60 with (inject_Z 60). rewrite <- Zle_Qle. lia.
  - intros h' Hle. rewrite <- Zle_Qle.
    assert (Hb : (Qfloor (h * (5 # 100)) <= Qfloor (h' * (5 # 100)))%Z)
      by (apply Qfloor_resp_le; lra).
    assert (Ht : (Qfloor (h * (1 # 10)) <= Qfloor (h' * (1 # 10)))%Z)
      by (apply Qfloor_resp_le; lra).
    lia.
  - intros Hh.
    pose proof (base_le_tenth h ltac:(lra)) as Hbt.
    assert (Hb : (60 <= Qfloor (h * (5 # 100)))%Z).
    { change 60%Z with (Qfloor 60). apply Qfloor_resp_le. lra. }
    apply inject_Z_injective. lia.
Qed.

Lemma automatic_margin_witness :
  determineBottomMargin None 480 <= determineBottomMargin None 2160
  /\ determineBottomMargin None 2160 == baseMarginOf 2160.
Proof.
  split.
  - apply (proj1 (proj2 (automatic_margin 480)) 2160). discriminate.
  - apply (proj2 (proj2 (automatic_margin 2160))). discriminate.
Defined.

End AutomaticMargin.
